(** * cube-lamp-esp32: a shallow embedding of [main.py]

    The MicroPython program drives a 66-pixel NeoPixel strip, polls two
    push buttons and keeps a small OLED status display.  The module-level
    globals of the script become the fields of [state]; every function that
    reads or writes them becomes a computation in the monad [M], which
    threads the state and carries the two ways a computation can stop
    early: an [IndexError] raised by an out-of-range subscript, and the
    exhaustion of the fuel that bounds the [while True] loops.

    Conventions.
    - Python integers are [Z] (indices and the two cyclic selectors are
      [nat]); [//] is [Z.div], [%] is [Z.modulo], [&] is [Z.land], [>>] is
      [Z.shiftr].
    - Python floats that scale a channel are exact rationals [Q]; [int] is
      truncation toward zero.  The lemmas [scale_matches_ieee] and
      [pulse_matches_ieee] check, for the IEEE formats binary32 and
      binary64, that the rounded product truncates to the same integer for
      every channel value at brightness 0.3 and for every step and colour
      of the pulse; [math.sin] is not computed, only bounded.
    - [time.sleep], [np.write], the OLED driver calls and every entry into
      [check_buttons] are recorded in [log], newest event first.  The log
      is ghost state: no definition reads it.
    - What the platform supplies (tick counter, pin levels, random draws,
      [math.sin] and [2 * math.pi]) comes from a [world]; [clock] and
      [rcount] count the samples and draws consumed.
    - Every call of the OLED driver may raise: the [world] says which
      calls do, [ocount] counts the calls made, and the [try]/[except]
      blocks around them are modelled as written; a call that raised is
      not logged.  [print] is not modelled. *)

From Stdlib Require Import ZArith QArith Lia Lqa SpecFloat.
From stdpp Require Import base list strings.

Open Scope Z_scope.

(** ** Data *)

Definition rgb : Type := Z * Z * Z.

Inductive oled_op : Type :=
| Fill0
| Text (s : string) (x y : Z)
| Show
| PowerOff
| PowerOn.

Inductive event : Type :=
| ECheck
| ESleep (ms : Z)
| ENpWrite (frame : list rgb)
| EOled (op : oled_op).

(** One entry into [check_buttons] reads the tick counter and both pins;
    [wake_ticks] is the further [time.ticks_ms()] read by [display_wake]. *)
Record sample : Type := {
  ticks : Z;
  pin1 : bool;
  pin2 : bool;
  wake_ticks : Z
}.

Record world : Type := {
  samples : nat -> sample;
  draws : nat -> Z;
  boot_ticks : Z;
  math_sin : Q -> Q;
  math_two_pi : Q;
  oled_raises : nat -> bool
}.

Record state : Type := {
  np : list rgb;
  oled_present : bool;
  button1_last_state : bool;
  button2_last_state : bool;
  last_button1_time : Z;
  last_button2_time : Z;
  last_activity_time : Z;
  display_sleeping : bool;
  current_effect : nat;
  current_color_index : nat;
  clock : nat;
  rcount : nat;
  ocount : nat;
  log : list event
}.

Definition LED_COUNT : nat := 66.
Definition debounce_delay : Z := 200.
Definition DISPLAY_TIMEOUT : Z := 30000.

Definition colors : list rgb :=
  [ (255, 0, 0); (0, 255, 0); (0, 0, 255); (255, 255, 0); (255, 0, 255);
    (0, 255, 255); (255, 128, 0); (128, 0, 255); (255, 255, 255) ].

Definition color_names : list string :=
  [ "Red"; "Green"; "Blue"; "Yellow"; "Magenta"; "Cyan"; "Orange";
    "Purple"; "White" ]%string.

Definition effect_names : list string :=
  [ "All On"; "Rainbow"; "Color Wipe"; "Chase"; "Pulse"; "Runner";
    "Aurora"; "Fire"; "Breathing"; "Off" ]%string.

(** The globals as the script leaves them before the main program starts;
    [present] says whether the OLED probe succeeded (the splash it draws
    is not logged). *)
Definition init_state (present : bool) : state := {|
  np := replicate LED_COUNT (0, 0, 0);
  oled_present := present;
  button1_last_state := true;
  button2_last_state := true;
  last_button1_time := 0;
  last_button2_time := 0;
  last_activity_time := 0;
  display_sleeping := false;
  current_effect := 0;
  current_color_index := 0;
  clock := 0;
  rcount := 0;
  ocount := 0;
  log := []
|}.

(** Field updates. *)
Definition set_np (v : list rgb) (s : state) : state :=
  {| np := v; oled_present := oled_present s;
     button1_last_state := button1_last_state s;
     button2_last_state := button2_last_state s;
     last_button1_time := last_button1_time s;
     last_button2_time := last_button2_time s;
     last_activity_time := last_activity_time s;
     display_sleeping := display_sleeping s;
     current_effect := current_effect s;
     current_color_index := current_color_index s;
     clock := clock s; rcount := rcount s; ocount := ocount s; log := log s |}.

Definition set_button1_last_state (v : bool) (s : state) : state :=
  {| np := np s; oled_present := oled_present s;
     button1_last_state := v;
     button2_last_state := button2_last_state s;
     last_button1_time := last_button1_time s;
     last_button2_time := last_button2_time s;
     last_activity_time := last_activity_time s;
     display_sleeping := display_sleeping s;
     current_effect := current_effect s;
     current_color_index := current_color_index s;
     clock := clock s; rcount := rcount s; ocount := ocount s; log := log s |}.

Definition set_button2_last_state (v : bool) (s : state) : state :=
  {| np := np s; oled_present := oled_present s;
     button1_last_state := button1_last_state s;
     button2_last_state := v;
     last_button1_time := last_button1_time s;
     last_button2_time := last_button2_time s;
     last_activity_time := last_activity_time s;
     display_sleeping := display_sleeping s;
     current_effect := current_effect s;
     current_color_index := current_color_index s;
     clock := clock s; rcount := rcount s; ocount := ocount s; log := log s |}.

Definition set_last_button1_time (v : Z) (s : state) : state :=
  {| np := np s; oled_present := oled_present s;
     button1_last_state := button1_last_state s;
     button2_last_state := button2_last_state s;
     last_button1_time := v;
     last_button2_time := last_button2_time s;
     last_activity_time := last_activity_time s;
     display_sleeping := display_sleeping s;
     current_effect := current_effect s;
     current_color_index := current_color_index s;
     clock := clock s; rcount := rcount s; ocount := ocount s; log := log s |}.

Definition set_last_button2_time (v : Z) (s : state) : state :=
  {| np := np s; oled_present := oled_present s;
     button1_last_state := button1_last_state s;
     button2_last_state := button2_last_state s;
     last_button1_time := last_button1_time s;
     last_button2_time := v;
     last_activity_time := last_activity_time s;
     display_sleeping := display_sleeping s;
     current_effect := current_effect s;
     current_color_index := current_color_index s;
     clock := clock s; rcount := rcount s; ocount := ocount s; log := log s |}.

Definition set_last_activity_time (v : Z) (s : state) : state :=
  {| np := np s; oled_present := oled_present s;
     button1_last_state := button1_last_state s;
     button2_last_state := button2_last_state s;
     last_button1_time := last_button1_time s;
     last_button2_time := last_button2_time s;
     last_activity_time := v;
     display_sleeping := display_sleeping s;
     current_effect := current_effect s;
     current_color_index := current_color_index s;
     clock := clock s; rcount := rcount s; ocount := ocount s; log := log s |}.

Definition set_display_sleeping (v : bool) (s : state) : state :=
  {| np := np s; oled_present := oled_present s;
     button1_last_state := button1_last_state s;
     button2_last_state := button2_last_state s;
     last_button1_time := last_button1_time s;
     last_button2_time := last_button2_time s;
     last_activity_time := last_activity_time s;
     display_sleeping := v;
     current_effect := current_effect s;
     current_color_index := current_color_index s;
     clock := clock s; rcount := rcount s; ocount := ocount s; log := log s |}.

Definition set_current_effect (v : nat) (s : state) : state :=
  {| np := np s; oled_present := oled_present s;
     button1_last_state := button1_last_state s;
     button2_last_state := button2_last_state s;
     last_button1_time := last_button1_time s;
     last_button2_time := last_button2_time s;
     last_activity_time := last_activity_time s;
     display_sleeping := display_sleeping s;
     current_effect := v;
     current_color_index := current_color_index s;
     clock := clock s; rcount := rcount s; ocount := ocount s; log := log s |}.

Definition set_current_color_index (v : nat) (s : state) : state :=
  {| np := np s; oled_present := oled_present s;
     button1_last_state := button1_last_state s;
     button2_last_state := button2_last_state s;
     last_button1_time := last_button1_time s;
     last_button2_time := last_button2_time s;
     last_activity_time := last_activity_time s;
     display_sleeping := display_sleeping s;
     current_effect := current_effect s;
     current_color_index := v;
     clock := clock s; rcount := rcount s; ocount := ocount s; log := log s |}.

Definition set_clock (v : nat) (s : state) : state :=
  {| np := np s; oled_present := oled_present s;
     button1_last_state := button1_last_state s;
     button2_last_state := button2_last_state s;
     last_button1_time := last_button1_time s;
     last_button2_time := last_button2_time s;
     last_activity_time := last_activity_time s;
     display_sleeping := display_sleeping s;
     current_effect := current_effect s;
     current_color_index := current_color_index s;
     clock := v; rcount := rcount s; ocount := ocount s; log := log s |}.

Definition set_rcount (v : nat) (s : state) : state :=
  {| np := np s; oled_present := oled_present s;
     button1_last_state := button1_last_state s;
     button2_last_state := button2_last_state s;
     last_button1_time := last_button1_time s;
     last_button2_time := last_button2_time s;
     last_activity_time := last_activity_time s;
     display_sleeping := display_sleeping s;
     current_effect := current_effect s;
     current_color_index := current_color_index s;
     clock := clock s; rcount := v; ocount := ocount s; log := log s |}.

Definition set_ocount (v : nat) (s : state) : state :=
  {| np := np s; oled_present := oled_present s;
     button1_last_state := button1_last_state s;
     button2_last_state := button2_last_state s;
     last_button1_time := last_button1_time s;
     last_button2_time := last_button2_time s;
     last_activity_time := last_activity_time s;
     display_sleeping := display_sleeping s;
     current_effect := current_effect s;
     current_color_index := current_color_index s;
     clock := clock s; rcount := rcount s; ocount := v; log := log s |}.

Definition set_log (v : list event) (s : state) : state :=
  {| np := np s; oled_present := oled_present s;
     button1_last_state := button1_last_state s;
     button2_last_state := button2_last_state s;
     last_button1_time := last_button1_time s;
     last_button2_time := last_button2_time s;
     last_activity_time := last_activity_time s;
     display_sleeping := display_sleeping s;
     current_effect := current_effect s;
     current_color_index := current_color_index s;
     clock := clock s; rcount := rcount s; ocount := ocount s; log := v |}.

(** ** The monad *)

Inductive result (A : Type) : Type :=
| Done (a : A) (s : state)
| IndexError (s : state)
| OutOfFuel (s : state).
Arguments Done {A} a s.
Arguments IndexError {A} s.
Arguments OutOfFuel {A} s.

Definition M (A : Type) : Type := state -> result A.

#[global] Instance M_ret : MRet M := λ A a s, Done a s.
#[global] Instance M_bind : MBind M := λ A B f m s,
  match m s with
  | Done a s' => f a s'
  | IndexError s' => IndexError s'
  | OutOfFuel s' => OutOfFuel s'
  end.

(** The state a computation stops in, however it stops. *)
Definition final {A} (r : result A) : state :=
  match r with Done _ s | IndexError s | OutOfFuel s => s end.

Definition gets {A} (f : state -> A) : M A := λ s, Done (f s) s.
Definition modify (f : state -> state) : M unit := λ s, Done tt (f s).
Definition raise_index {A} : M A := λ s, IndexError s.
Definition out_of_fuel {A} : M A := λ s, OutOfFuel s.

Definition emit (e : event) : M unit := modify (λ s, set_log (e :: log s) s).

(** [for x in xs: body] without a [return] in the body. *)
Fixpoint for_ {A} (xs : list A) (body : A -> M unit) : M unit :=
  match xs with
  | [] => mret tt
  | x :: xs' => body x;; for_ xs' body
  end.

(** [for x in xs: body] where the body may [return] from the enclosing
    function: the body answers [true] when it did, and so does the loop. *)
Fixpoint for_each {A} (xs : list A) (body : A -> M bool) : M bool :=
  match xs with
  | [] => mret false
  | x :: xs' => r ← body x; if r : bool then mret true else for_each xs' body
  end.

(** [for x in xs: acc = body(x, acc)]. *)
Fixpoint for_acc {A S} (xs : list A) (body : A -> S -> M S) (acc : S) : M S :=
  match xs with
  | [] => mret acc
  | x :: xs' => acc' ← body x acc; for_acc xs' body acc'
  end.

(** [while True: body], the loop variables in [S]; the body answers [None]
    when it returned from the enclosing function. *)
Fixpoint while_true {S} (fuel : nat) (body : S -> M (option S)) (st : S) : M unit :=
  match fuel with
  | O => out_of_fuel
  | S n => r ← body st;
           match r with
           | None => mret tt
           | Some st' => while_true n body st'
           end
  end.

(** [range(n)], and [range(hi, lo, -1)] as the reverse of [lo+1 .. hi]. *)
Definition range (n : nat) : list nat := seq 0 n.
Definition range_down (hi lo : nat) : list nat := reverse (seq (S lo) (hi - lo)).

(** ** Library functions of MicroPython *)

(** [time.ticks_diff]: the signed difference on the 30-bit tick ring. *)
Definition TICKS_PERIOD : Z := 2 ^ 30.
Definition ticks_diff (a b : Z) : Z :=
  (a - b + TICKS_PERIOD / 2) mod TICKS_PERIOD - TICKS_PERIOD / 2.

Definition sleep_ms (ms : Z) : M unit := emit (ESleep ms).

(** [random.randint(a, b)]: any integer of [a..b]; the raw draw is folded
    into the interval, so every outcome is reached by some [world]. *)
Definition randint (w : world) (a b : Z) : M Z := λ s,
  Done (a + draws w (rcount s) mod (b - a + 1)) (set_rcount (S (rcount s)) s).

(** [int(x)] on a float. *)
Definition int (q : Q) : Z := Z.quot (Qnum q) (Zpos (Qden q)).

(** ** NeoPixel buffer *)

Definition np_set (i : nat) (c : rgb) : M unit := λ s,
  if decide (i < length (np s))%nat
  then Done tt (set_np (<[i:=c]> (np s)) s)
  else IndexError s.

Definition np_write : M unit := λ s, Done tt (set_log (ENpWrite (np s) :: log s) s).

(** Subscript on a Python list. *)
Definition subscript {A} (l : list A) (i : nat) : M A :=
  match l !! i with
  | Some x => mret x
  | None => raise_index
  end.

(** ** OLED

    Every call of the driver sits in a [try] block whose handler only
    prints.  Inside such a block a computation answers [None] once an
    exception was raised, and the rest of the block is skipped. *)

(** One driver call: the world says whether it raises; a call that
    returns is logged. *)
Definition oled (w : world) (op : oled_op) : M (option unit) := λ s,
  if oled_raises w (ocount s)
  then Done None (set_ocount (S (ocount s)) s)
  else Done (Some tt) (set_ocount (S (ocount s)) (set_log (EOled op :: log s) s)).

Definition try_bind {A B} (m : M (option A)) (k : A → M (option B)) : M (option B) :=
  r ← m; match r with Some a => k a | None => mret None end.

Notation "x ←? m ; k" := (try_bind m (λ x, k))
  (at level 20, m at level 100, k at level 200, only parsing).
Notation "m ?;; k" := (try_bind m (λ _, k))
  (at level 100, k at level 200, only parsing, right associativity).

(** A subscript inside a [try]: its [IndexError] is caught like any other
    exception. *)
Definition try_subscript {A} (l : list A) (i : nat) : M (option A) := mret (l !! i).

(** [try: body] with [except Exception as e: print(...)]. *)
Definition try_except (body : M (option unit)) : M unit := body;; mret tt.

Definition truncate_name (t : string) : string :=
  if (16 <? String.length t)%nat then (String.substring 0 13 t ++ "...")%string else t.

(** Lines 153-186. *)
Definition update_display (w : world) : M unit := λ s,
  if negb (oled_present s) || display_sleeping s then Done tt s
  else
    let e := current_effect s in
    try_except (
      oled w Fill0 ?;;
      effect_text ←? try_subscript effect_names e;
      oled w (Text ("Mode: " ++ truncate_name effect_text) 0 0) ?;;
      (if negb ((e =? 1) || (e =? 6) || (e =? 7) || (e =? 9))%nat then
         color_text ←? try_subscript color_names (current_color_index s);
         oled w (Text ("Color: " ++ color_text) 0 12)
       else if (e =? 1)%nat then oled w (Text "Color: Rainbow" 0 12)
       else if (e =? 6)%nat then oled w (Text "Color: Aurora" 0 12)
       else if (e =? 7)%nat then oled w (Text "Color: Fire" 0 12)
       else mret (Some tt)) ?;;
      (if (e =? 9)%nat then oled w (Text "Status: OFF" 0 24)
       else oled w (Text "LEDs: 66" 0 24)) ?;;
      oled w Show) s.

(** Lines 126-137; the flag is raised inside the [try], after the three
    driver calls. *)
Definition display_sleep (w : world) : M unit := λ s,
  if negb (oled_present s) || display_sleeping s then Done tt s
  else
    try_except (
      oled w Fill0 ?;;
      oled w Show ?;;
      oled w PowerOff ?;;
      modify (set_display_sleeping true);;
      mret (Some tt)) s.

(** Lines 139-151; only [oled.poweron()] sits in the [try]. *)
Definition display_wake (w : world) (t : Z) : M unit := λ s,
  if negb (oled_present s) then Done tt s
  else ((if display_sleeping s then try_except (oled w PowerOn) else mret tt);;
        modify (set_display_sleeping false);;
        modify (set_last_activity_time t);;
        update_display w) s.

(** ** Strip helpers *)

(** Lines 188-192. *)
Definition clear : M unit :=
  for_ (range LED_COUNT) (λ i, np_set i (0, 0, 0));; np_write.

Definition scale (c : Z) (brightness : Q) : Z := int (inject_Z c * brightness).

Definition default_brightness : Q := 3 # 10.

(** Lines 194-200. *)
Definition set_color (index : nat) (r g b : Z) (brightness : Q) : M unit :=
  np_set index (scale r brightness, scale g brightness, scale b brightness);;
  np_write.

(** Lines 202-209. *)
Definition set_all (r g b : Z) (brightness : Q) : M unit :=
  let c := (scale r brightness, scale g brightness, scale b brightness) in
  for_ (range LED_COUNT) (λ i, np_set i c);; np_write.

(** Lines 211-220. *)
Definition wheel (pos : Z) : rgb :=
  if pos <? 85 then (pos * 3, 255 - pos * 3, 0)
  else if pos <? 170 then (255 - (pos - 85) * 3, 0, (pos - 85) * 3)
  else (0, (pos - 170) * 3, 255 - (pos - 170) * 3).

(** ** Buttons *)

(** Lines 232-246: Button 1, the effect selector. *)
Definition handle_button1 (w : world) (smp : sample) : M bool := λ s,
  let current_time := ticks smp in
  let button1_state := pin1 smp in
  (pressed ←
     (if negb button1_state && button1_last_state s then
        if ticks_diff current_time (last_button1_time s) >? debounce_delay then
          (if display_sleeping s then display_wake w (wake_ticks smp)
           else
             modify (λ s, set_current_effect
                            ((current_effect s + 1) mod length effect_names)%nat s);;
             clear;;
             update_display w);;
          modify (set_last_activity_time current_time);;
          modify (set_last_button1_time current_time);;
          mret true
        else mret false
      else mret false);
   modify (set_button1_last_state button1_state);;
   mret pressed) s.

(** Lines 248-261: Button 2, the colour selector. *)
Definition handle_button2 (w : world) (smp : sample) : M bool := λ s,
  let current_time := ticks smp in
  let button2_state := pin2 smp in
  (pressed ←
     (if negb button2_state && button2_last_state s then
        if ticks_diff current_time (last_button2_time s) >? debounce_delay then
          (if display_sleeping s then display_wake w (wake_ticks smp)
           else
             modify (λ s, set_current_color_index
                            ((current_color_index s + 1) mod length colors)%nat s);;
             update_display w);;
          modify (set_last_activity_time current_time);;
          modify (set_last_button2_time current_time);;
          mret true
        else mret false
      else mret false);
   modify (set_button2_last_state button2_state);;
   mret pressed) s.

(** Lines 263-266. *)
Definition check_timeout (w : world) (smp : sample) : M unit := λ s,
  if negb (display_sleeping s) && oled_present s then
    if ticks_diff (ticks smp) (last_activity_time s) >? DISPLAY_TIMEOUT
    then display_sleep w s
    else Done tt s
  else Done tt s.

Definition next_sample (w : world) : M sample := λ s,
  Done (samples w (clock s)) (set_clock (S (clock s)) s).

(** Lines 222-268. *)
Definition check_buttons (w : world) : M bool :=
  emit ECheck;;
  smp ← next_sample w;
  pressed1 ← handle_button1 w smp;
  pressed2 ← handle_button2 w smp;
  check_timeout w smp;;
  mret (pressed1 || pressed2).

(** ** Effects *)

(** [r, g, b = colors[current_color_index]]. *)
Definition current_color : M rgb :=
  idx ← gets current_color_index; subscript colors idx.

(** Lines 271-275. *)
Definition effect_all_on : M unit :=
  c ← current_color;
  let '(r, g, b) := c in
  set_all r g b default_brightness;;
  sleep_ms 50.

(** Lines 277-286. *)
Definition effect_rainbow_cycle (w : world) : M unit :=
  for_each (range 255) (λ j,
    pressed ← check_buttons w;
    if pressed : bool then mret true
    else
      for_ (range LED_COUNT) (λ i,
        let pixel_index := Z.of_nat i * 256 / Z.of_nat LED_COUNT + Z.of_nat j in
        let '(r, g, b) := wheel (Z.land pixel_index 255) in
        set_color i r g b (3 # 10));;
      sleep_ms 10;;
      mret false);;
  mret tt.

(** Lines 288-301. *)
Definition effect_color_wipe (w : world) : M unit :=
  c ← current_color;
  let '(r, g, b) := c in
  returned ← for_each (range LED_COUNT) (λ i,
    pressed ← check_buttons w;
    if pressed : bool then mret true
    else set_color i r g b default_brightness;; sleep_ms 50;; mret false);
  if returned : bool then mret tt
  else
    sleep_ms 500;;
    for_each (range LED_COUNT) (λ i,
      pressed ← check_buttons w;
      if pressed : bool then mret true
      else set_color i 0 0 0 default_brightness;; sleep_ms 50;; mret false);;
    mret tt.

(** [range(0, stop, step)]. *)
Definition range_by (stop step : nat) : list nat :=
  (λ k, k * step)%nat <$> seq 0 ((stop + step - 1) / step)%nat.

(** Lines 303-315. *)
Definition effect_theater_chase (w : world) : M unit :=
  c ← current_color;
  let '(r, g, b) := c in
  for_each (range 10) (λ j,
    pressed ← check_buttons w;
    if pressed : bool then mret true
    else
      for_ (range 3) (λ q,
        for_ (range_by LED_COUNT 3) (λ i,
          if (i + q <? LED_COUNT)%nat
          then set_color (i + q) r g b default_brightness
          else mret tt);;
        sleep_ms 50;;
        clear;;
        sleep_ms 50);;
      mret false);;
  mret tt.

Definition pulse_steps : nat := 50.

(** The body shared by the two loops of [effect_pulse], lines 322-326 and
    329-333. *)
Definition pulse_step (w : world) (r g b : Z) (brightness : nat) : M bool :=
  pressed ← check_buttons w;
  if pressed : bool then mret true
  else
    let bright := (inject_Z (Z.of_nat brightness) / inject_Z (Z.of_nat pulse_steps))%Q in
    set_all r g b (bright * (1 # 2));;
    sleep_ms 20;;
    mret false.

(** Lines 317-333. *)
Definition effect_pulse (w : world) : M unit :=
  c ← current_color;
  let '(r, g, b) := c in
  returned ← for_each (range pulse_steps) (pulse_step w r g b);
  if returned : bool then mret tt
  else for_each (range_down pulse_steps 0) (pulse_step w r g b);; mret tt.

Definition running_step (w : world) (r g b : Z) (i : nat) : M bool :=
  pressed ← check_buttons w;
  if pressed : bool then mret true
  else clear;; set_color i r g b default_brightness;; sleep_ms 50;; mret false.

(** Lines 335-351; [range(LED_COUNT - 1, -1, -1)] is [range LED_COUNT]
    reversed. *)
Definition effect_running_light (w : world) : M unit :=
  c ← current_color;
  let '(r, g, b) := c in
  returned ← for_each (range LED_COUNT) (running_step w r g b);
  if returned : bool then mret tt
  else for_each (reverse (range LED_COUNT)) (running_step w r g b);; mret tt.

Definition aurora_colors : list rgb :=
  [ (0, 255, 80); (0, 255, 180); (0, 200, 255); (0, 100, 255);
    (80, 0, 255); (150, 0, 200); (0, 180, 130) ].

Definition palette_len : Z := Z.of_nat (length aurora_colors).

Definition blend (a b frac : Z) : Z := Z.shiftr (a * (256 - frac) + b * frac) 8.

(** Lines 372-380: the colour of pixel [i] at a given [offset]. *)
Definition aurora_pixel (offset : Z) (i : nat) : M unit :=
  let pos := (Z.of_nat i * palette_len * 256 / Z.of_nat LED_COUNT + offset)
               mod (palette_len * 256) in
  let idx := pos / 256 in
  let frac := pos mod 256 in
  c1 ← subscript aurora_colors (Z.to_nat idx);
  c2 ← subscript aurora_colors (Z.to_nat ((idx + 1) mod palette_len));
  let '(r1, g1, b1) := c1 in
  let '(r2, g2, b2) := c2 in
  let r := blend r1 r2 frac in
  let g := blend g1 g2 frac in
  let b := blend b1 b2 frac in
  np_set i (scale r (3 # 10), scale g (3 # 10), scale b (3 # 10)).

Definition aurora_frame (w : world) (offset : Z) : M (option Z) :=
  pressed ← check_buttons w;
  if pressed : bool then mret None
  else
    for_ (range LED_COUNT) (aurora_pixel offset);;
    np_write;;
    sleep_ms 30;;
    mret (Some ((offset + 3) mod (palette_len * 256))).

(** Lines 353-383. *)
Definition effect_aurora (w : world) (fuel : nat) : M unit :=
  while_true fuel (aurora_frame w) 0.

(** [l[i] = v] on a Python list. *)
Definition assign {A} (l : list A) (i : nat) (v : A) : M (list A) :=
  if decide (i < length l)%nat then mret (<[i:=v]> l) else raise_index.

Definition cooling : Z := 10.
Definition sparking : Z := 120.

(** Lines 395-396. *)
Definition fire_cool (w : world) (heat : list Z) : M (list Z) :=
  for_acc (range LED_COUNT) (λ i heat,
    t ← subscript heat i;
    c ← randint w 0 (cooling * 10 / Z.of_nat LED_COUNT + 2);
    assign heat i (Z.max 0 (t - c))) heat.

(** Lines 398-399. *)
Definition fire_drift (heat : list Z) : M (list Z) :=
  for_acc (range_down (LED_COUNT - 1) 1) (λ i heat,
    a ← subscript heat (i - 1);
    b ← subscript heat (i - 2);
    assign heat i ((a + b + b) / 3)) heat.

(** Lines 401-403. *)
Definition fire_spark (w : world) (heat : list Z) : M (list Z) :=
  p ← randint w 0 255;
  if p <? sparking then
    y ← randint w 0 (Z.min 7 (Z.of_nat LED_COUNT - 1));
    t ← subscript heat (Z.to_nat y);
    d ← randint w 160 255;
    assign heat (Z.to_nat y) (Z.min 255 (t + d))
  else mret heat.

(** Lines 406-415. *)
Definition heat_color (t : Z) : rgb :=
  if t >? 170 then (255, 255, Z.min 255 ((t - 170) * 3))
  else if t >? 85 then (255, Z.min 255 ((t - 85) * 3), 0)
  else (Z.min 255 (t * 3), 0, 0).

(** Lines 405-417. *)
Definition fire_render (heat : list Z) : M unit :=
  for_ (range LED_COUNT) (λ i,
    t ← subscript heat i;
    let '(r, g, b) := heat_color t in
    np_set i (scale r (3 # 10), scale g (3 # 10), scale b (3 # 10)));;
  np_write.

Definition fire_frame (w : world) (heat : list Z) : M (option (list Z)) :=
  pressed ← check_buttons w;
  if pressed : bool then mret None
  else
    heat ← fire_cool w heat;
    heat ← fire_drift heat;
    heat ← fire_spark w heat;
    fire_render heat;;
    sleep_ms 20;;
    mret (Some heat).

(** Lines 385-418. *)
Definition effect_fire (w : world) (fuel : nat) : M unit :=
  while_true fuel (fire_frame w) (replicate LED_COUNT 0).

Definition breathing_frame (w : world) (r g b : Z) (step : Q) : M (option Q) :=
  pressed ← check_buttons w;
  if pressed : bool then mret None
  else
    let bright := ((math_sin w step + 1) / 2)%Q in
    set_all r g b (bright * (3 # 10));;
    let step := (step + (4 # 100))%Q in
    let step := if Qlt_le_dec (math_two_pi w) step then (step - math_two_pi w)%Q else step in
    sleep_ms 20;;
    mret (Some step).

(** Lines 420-433. *)
Definition effect_breathing (w : world) (fuel : nat) : M unit :=
  c ← current_color;
  let '(r, g, b) := c in
  while_true fuel (breathing_frame w r g b) 0%Q.

(** Lines 435-438. *)
Definition effect_off : M unit := clear;; sleep_ms 100.

(** ** Main program *)

(** Lines 462-481. *)
Definition run_effect (w : world) (fuel : nat) (e : nat) : M unit :=
  match e with
  | 0 => effect_all_on
  | 1 => effect_rainbow_cycle w
  | 2 => effect_color_wipe w
  | 3 => effect_theater_chase w
  | 4 => effect_pulse w
  | 5 => effect_running_light w
  | 6 => effect_aurora w fuel
  | 7 => effect_fire w fuel
  | 8 => effect_breathing w fuel
  | 9 => effect_off
  | _ => mret tt
  end%nat.

(** Lines 458-483: [n] turns of the outer loop. *)
Fixpoint main_loop (w : world) (fuel n : nat) : M unit :=
  match n with
  | O => out_of_fuel
  | S n' =>
    check_buttons w;;
    e ← gets current_effect;
    run_effect w fuel e;;
    sleep_ms 10;;
    main_loop w fuel n'
  end.

(** Lines 450-483. *)
Definition main (w : world) (fuel : nat) : M unit :=
  clear;;
  sleep_ms 2000;;
  update_display w;;
  modify (set_last_activity_time (boot_ticks w));;
  sleep_ms 1000;;
  main_loop w fuel fuel.

(** ** Vocabulary of the properties *)

(** The driver calls one [update_display] sets out to make, oldest first. *)
Definition status_ops (s : state) : list oled_op :=
  if negb (oled_present s) || display_sleeping s then []
  else
    let e := current_effect s in
    Fill0 ::
    match effect_names !! e with
    | None => []
    | Some name =>
      let status :=
        [ (if (e =? 9)%nat then Text "Status: OFF" 0 24 else Text "LEDs: 66" 0 24);
          Show ] in
      Text ("Mode: " ++ truncate_name name) 0 0 ::
      (if negb ((e =? 1) || (e =? 6) || (e =? 7) || (e =? 9))%nat then
         match color_names !! current_color_index s with
         | None => []
         | Some cname => Text ("Color: " ++ cname) 0 12 :: status
         end
       else if (e =? 1)%nat then Text "Color: Rainbow" 0 12 :: status
       else if (e =? 6)%nat then Text "Color: Aurora" 0 12 :: status
       else if (e =? 7)%nat then Text "Color: Fire" 0 12 :: status
       else status)
    end.

(** The driver calls of a [try] block, made in order up to the first that
    raises. *)
Fixpoint driver_run (w : world) (ops : list oled_op) (s : state) : state :=
  match ops with
  | [] => s
  | op :: ops' =>
    if oled_raises w (ocount s) then set_ocount (S (ocount s)) s
    else driver_run w ops'
           (set_ocount (S (ocount s)) (set_log (EOled op :: log s) s))
  end.

(** None of the [k] driver calls from the [n]-th on raises. *)
Fixpoint driver_ok (w : world) (n k : nat) : bool :=
  match k with
  | O => true
  | S k' => negb (oled_raises w n) && driver_ok w (S n) k'
  end.

(** No driver call ever raises. *)
Definition reliable (w : world) : Prop := ∀ n, oled_raises w n = false.

(** The state after [update_display]. *)
Definition shown (w : world) (s : state) : state :=
  driver_run w (status_ops s) s.

Definition dark : list rgb := replicate LED_COUNT (0, 0, 0).

(** A falling edge on a button, and the debounce test on it. *)
Definition edge1 (s : state) (smp : sample) : bool :=
  negb (pin1 smp) && button1_last_state s.
Definition edge2 (s : state) (smp : sample) : bool :=
  negb (pin2 smp) && button2_last_state s.
Definition debounced1 (s : state) (smp : sample) : bool :=
  ticks_diff (ticks smp) (last_button1_time s) >? debounce_delay.
Definition debounced2 (s : state) (smp : sample) : bool :=
  ticks_diff (ticks smp) (last_button2_time s) >? debounce_delay.

(** Largest per-channel distance between two colours. *)
Definition chan_dist (c d : rgb) : Z :=
  let '(r1, g1, b1) := c in
  let '(r2, g2, b2) := d in
  Z.max (Z.abs (r1 - r2)) (Z.max (Z.abs (g1 - g2)) (Z.abs (b1 - b2))).

Definition chan_ok (c : Z) : Prop := 0 <= c <= 255.
Definition rgb_ok (c : rgb) : Prop :=
  let '(r, g, b) := c in chan_ok r ∧ chan_ok g ∧ chan_ok b.
Definition heat_ok (heat : list Z) : Prop := Forall chan_ok heat.
Definition strip_ok (l : list rgb) : Prop := Forall rgb_ok l.

(** The three channels of a colour scaled by one brightness. *)
Definition scale_rgb (c : rgb) (q : Q) : rgb :=
  let '(r, g, b) := c in (scale r q, scale g q, scale b q).

(** The brightness of [effect_breathing] at phase [x]. *)
Definition breathing_brightness (w : world) (x : Q) : Q :=
  ((math_sin w x + 1) / 2 * (3 # 10))%Q.

(** The loop invariant of [effect_fire] on its local [heat]. *)
Definition heat_inv (heat : list Z) : Prop :=
  heat_ok heat ∧ length heat = LED_COUNT.

(** Partial correctness with an exit condition: from a state in [P], a
    normal return satisfies [Q] and an [IndexError] or an exhausted fuel
    leaves a state in [R]. *)
Definition hoare {A} (P : state → Prop) (m : M A)
    (Q : A → state → Prop) (R : state → Prop) : Prop :=
  ∀ s, P s →
    match m s with
    | Done a s' => Q a s'
    | IndexError s' | OutOfFuel s' => R s'
    end.

(** [hoare] for a state invariant [I] together with a fact [P] about the
    returned value; [R] is what holds when the computation stops early. *)
Definition triple {A} (I R : state → Prop) (m : M A) (P : A → Prop) : Prop :=
  hoare I m (λ a s, P a ∧ I s) R.

Definition len_ok (s : state) : Prop := length (np s) = LED_COUNT.

(** A press of a button that [check_buttons] acts upon. *)
Definition accepted1 (s : state) (smp : sample) : bool :=
  edge1 s smp && debounced1 s smp.
Definition accepted2 (s : state) (smp : sample) : bool :=
  edge2 s smp && debounced2 s smp.

(** The loop variables of [while True: body] after [n] turns, [None] when
    the body returned from the function before. *)
Fixpoint turns {S} (n : nat) (body : S → M (option S)) (st : S) : M (option S) :=
  match n with
  | O => mret (Some st)
  | S n' => r ← body st;
            match r with
            | None => mret None
            | Some st' => turns n' body st'
            end
  end.

(** [n] consecutive entries into [check_buttons]. *)
Fixpoint polls (w : world) (n : nat) : M unit :=
  match n with
  | O => mret tt
  | S n' => check_buttons w;; polls w n'
  end.

(** Worlds used to run the program on concrete inputs. *)
Definition idle_sample (t : Z) : sample :=
  {| ticks := t; pin1 := true; pin2 := true; wake_ticks := t |}.
Definition press_sample (t : Z) (p1 p2 : bool) : sample :=
  {| ticks := t; pin1 := negb p1; pin2 := negb p2; wake_ticks := t |}.

Definition square_wave (x : Q) : Q := if Qle_bool x (3142 # 1000) then 1%Q else (-1)%Q.

(** Nobody touches the buttons; one poll every 10 ms. *)
Definition quiet_world : world :=
  {| samples := λ n, idle_sample (1000 + Z.of_nat n * 10);
     draws := λ n, Z.of_nat n * 7919 + 13;
     boot_ticks := 1000;
     math_sin := square_wave;
     math_two_pi := 6283 # 1000;
     oled_raises := λ _, false |}.

(** The first poll sees the given sample, later polls see idle pins. *)
Definition world_of (first : sample) : world :=
  {| samples := λ n, match n with O => first | S _ => idle_sample (ticks first + Z.of_nat n * 10) end;
     draws := λ n, Z.of_nat n * 7919 + 13;
     boot_ticks := 1000;
     math_sin := square_wave;
     math_two_pi := 6283 # 1000;
     oled_raises := λ _, false |}.

(** The same, with a driver whose [k]-th call raises. *)
Definition raising_world (first : sample) (k : nat) : world :=
  {| samples := samples (world_of first);
     draws := draws (world_of first);
     boot_ticks := 1000;
     math_sin := square_wave;
     math_two_pi := 6283 # 1000;
     oled_raises := λ n, (n =? k)%nat |}.

(** The events one entry into [check_buttons] can add after its [ECheck]:
    driver calls of the display and the write of a cleared strip. *)
Definition button_ev (e : event) : Prop :=
  match e with
  | EOled _ => True
  | ENpWrite f => f = dark
  | ECheck | ESleep _ => False
  end.

(** A state whose strip, and every frame written so far, holds channel
    values in [0, 255] only. *)
Definition event_ok (e : event) : Prop :=
  match e with
  | ENpWrite f => strip_ok f
  | _ => True
  end.
Definition good (s : state) : Prop :=
  len_ok s ∧ strip_ok (np s) ∧ Forall event_ok (log s).

(** A state of the program running without its display: the probe failed,
    the sleeping flag is down and no driver call was ever made. *)
Definition no_oled (e : event) : Prop :=
  match e with
  | EOled _ => False
  | _ => True
  end.
Definition headless (s : state) : Prop :=
  len_ok s ∧ oled_present s = false ∧ display_sleeping s = false ∧
  Forall no_oled (log s).

(** The program with its display asleep, otherwise as at start. *)
Definition asleep_state : state := set_display_sleeping true (init_state true).

(** Button 1 bounces: pressed at 1000 ms, released at 1050 ms, pressed
    again at 1100 ms. *)
Definition bounce_world : world :=
  {| samples := λ n, match n with
                     | 0%nat => press_sample 1000 true false
                     | 1%nat => idle_sample 1050
                     | _ => press_sample 1100 true false
                     end;
     draws := λ n, Z.of_nat n;
     boot_ticks := 0;
     math_sin := square_wave;
     math_two_pi := 6283 # 1000;
     oled_raises := λ _, false |}.

(** The frames written to the strip, newest first. *)
Definition frames (l : list event) : list (list rgb) :=
  omap (λ e, match e with ENpWrite f => Some f | _ => None end) l.

(** The brightness handed to [set_all] at step [k] of [effect_pulse], and
    the frame it writes for the colour [c]. *)
Definition pulse_brightness (k : nat) : Q :=
  (inject_Z (Z.of_nat k) / inject_Z (Z.of_nat pulse_steps) * (1 # 2))%Q.
Definition pulse_frame (c : rgb) (k : nat) : list rgb :=
  replicate LED_COUNT (scale_rgb c (pulse_brightness k)).

(** Nobody presses a button: both pins read high at every poll. *)
Definition idle (w : world) : Prop :=
  ∀ n, pin1 (samples w n) = true ∧ pin2 (samples w n) = true.

(** Pacing of a log, read from its oldest event: the sleep accumulated
    since the latest entry into [check_buttons] ([None] before the first
    entry), and the longest sleep accumulated between two consecutive
    entries. *)
Fixpoint pacing (l : list event) : option Z * Z :=
  match l with
  | [] => (None, 0)
  | e :: l' =>
    let '(cur, best) := pacing l' in
    match e with
    | ECheck => (Some 0, match cur with Some c => Z.max best c | None => best end)
    | ESleep ms => ((λ c, c + ms) <$> cur, best)
    | _ => (cur, best)
    end
  end.
Definition since_check (l : list event) : option Z := (pacing l).1.
Definition max_gap (l : list event) : Z := (pacing l).2.

(** The events of one call of [m] from the state [s]. *)
Definition call_trace {A} (m : M A) (s : state) : list event :=
  log (final (m (set_log [] s))).

(** At most [c] ms slept since the latest entry into [check_buttons], and
    never more than [B] ms between two entries. *)
Definition gap_at (c B : Z) (s : state) : Prop :=
  len_ok s ∧ max_gap (log s) <= B ∧
  ∀ x, since_check (log s) = Some x → x <= c.

(** IEEE 754 arithmetic, to compare the exact rationals with: a format is
    its precision and exponent bound (binary32 is 24 and 128, binary64 is
    53 and 1024); literals and [int]-to-float conversions are correctly
    rounded, [ieee_int] is [int] on a float. *)
Definition ieee_of_Z (prec emax z : Z) : spec_float :=
  binary_normalize prec emax z 0 false.
Definition ieee_int (x : spec_float) : Z :=
  match x with
  | S754_finite sign m e =>
    let v := if 0 <=? e then Z.pos m * 2 ^ e else Z.quot (Z.pos m) (2 ^ (- e)) in
    if sign then - v else v
  | _ => 0
  end.
(** The literals [0.3] and [0.5]. *)
Definition ieee_03 (prec emax : Z) : spec_float :=
  SFdiv prec emax (ieee_of_Z prec emax 3) (ieee_of_Z prec emax 10).
Definition ieee_05 (prec emax : Z) : spec_float :=
  SFdiv prec emax (ieee_of_Z prec emax 1) (ieee_of_Z prec emax 2).
(** [int(c * brightness)] in floats. *)
Definition ieee_scale (prec emax : Z) (c : Z) (brightness : spec_float) : Z :=
  ieee_int (SFmul prec emax (ieee_of_Z prec emax c) brightness).
(** [(k / steps) * 0.5] in floats, the brightness of [effect_pulse]. *)
Definition ieee_pulse_brightness (prec emax : Z) (k : nat) : spec_float :=
  SFmul prec emax
    (SFdiv prec emax (ieee_of_Z prec emax (Z.of_nat k))
                     (ieee_of_Z prec emax (Z.of_nat pulse_steps)))
    (ieee_05 prec emax).

(** A state that an accepted effect change has just left: the strip is
    cleared, and since the cleared frame of that entry into
    [check_buttons] nothing was logged but driver calls of the display. *)
Definition just_changed (s : state) : Prop :=
  np s = dark ∧
  ∃ ops l, log s = (EOled <$> ops) ++ ENpWrite dark :: ECheck :: l.

(** The program in the middle of effect [e], the strip lit in red. *)
Definition lit_state (e : nat) : state :=
  set_current_effect e (set_np (replicate LED_COUNT (76, 0, 0)) (init_state true)).

(** The events of one call of [m] set between two entries into
    [check_buttons], one put before the call and one after it: the pacing
    of this trace also counts the sleep from the start of the call to its
    first entry into [check_buttons], and the sleep from its last entry to
    the point where the call stops. *)
Definition paced_trace {A} (m : M A) (s : state) : list event :=
  ECheck :: log (final (m (set_log [ECheck] s))).
Definition call_gap {A} (m : M A) (s : state) : Z := max_gap (paced_trace m s).

(** The number of entries into [check_buttons]. *)
Fixpoint checks (l : list event) : nat :=
  match l with
  | [] => 0
  | ECheck :: l' => S (checks l')
  | _ :: l' => checks l'
  end.

(** The first event of a trace is its oldest, the last of the list. *)
Definition first_event (l : list event) : option event := last l.

(** A call that has entered [check_buttons] before anything else it
    logged; on entry the log is empty and the colour selector in range. *)
Definition checked_first (s : state) : Prop :=
  len_ok s ∧ first_event (log s) = Some ECheck.
Definition fresh_call (s : state) : Prop :=
  len_ok s ∧
  ((log s = [] ∧ (current_color_index s < length colors)%nat) ∨
   first_event (log s) = Some ECheck).

(** * Properties *)

Ltac munfold :=
  unfold mbind, M_bind, mret, M_ret, gets, modify, emit, oled, raise_index,
    out_of_fuel, sleep_ms in *.

(** Projections of an updated state, without unfolding what is stored. *)
Ltac fields :=
  cbn [final np oled_present button1_last_state button2_last_state
       last_button1_time last_button2_time last_activity_time
       display_sleeping current_effect current_color_index clock rcount
       ocount log
       set_np set_button1_last_state set_button2_last_state
       set_last_button1_time set_last_button2_time set_last_activity_time
       set_display_sleeping set_current_effect set_current_color_index
       set_clock set_rcount set_ocount set_log] in *.

Ltac try_run w :=
  unfold try_except, try_bind, try_subscript; munfold;
  repeat (cbn [driver_run]; fields;
          match goal with
          | |- context [oled_raises w ?n] => destruct (oled_raises w n)
          end);
  reflexivity.

Lemma update_display_eq w s : update_display w s = Done tt (shown w s).
Proof.
  unfold update_display, shown, status_ops, try_except, try_bind, try_subscript.
  destruct (negb (oled_present s) || display_sleeping s) eqn:Hoff.
  { reflexivity. }
  munfold.
  destruct (current_effect s) as [|[|[|[|[|[|[|[|[|[|e]]]]]]]]]] eqn:He;
    cbn [lookup list_lookup effect_names Nat.eqb negb orb];
    try destruct (color_names !! current_color_index s); try_run w.
Qed.

Lemma display_sleep_eq w s :
  display_sleep w s =
  if negb (oled_present s) || display_sleeping s then Done tt s
  else
    let s1 := driver_run w [Fill0; Show; PowerOff] s in
    Done tt (if driver_ok w (ocount s) 3 then set_display_sleeping true s1 else s1).
Proof.
  unfold display_sleep.
  destruct (negb (oled_present s) || display_sleeping s); [reflexivity|].
  cbn [driver_ok]. try_run w.
Qed.

Lemma display_wake_eq w t s :
  display_wake w t s =
  if negb (oled_present s) then Done tt s
  else Done tt (shown w (set_last_activity_time t (set_display_sleeping false
         (if display_sleeping s then driver_run w [PowerOn] s else s)))).
Proof.
  unfold display_wake.
  destruct (negb (oled_present s)); [reflexivity|].
  destruct (display_sleeping s).
  - unfold try_except. munfold. cbn [driver_run].
    destruct (oled_raises w (ocount s)); apply update_display_eq.
  - munfold. apply update_display_eq.
Qed.

(** A [try] block of driver calls changes the log and the call counter
    only; the calls logged are a prefix of those set out, and all of them
    when no call raises. *)
Lemma driver_run_spec w ops : ∀ s,
  ∃ made n, driver_run w ops s =
      set_ocount n (set_log (reverse (EOled <$> made) ++ log s) s) ∧
    made `prefix_of` ops ∧ (reliable w → made = ops).
Proof.
  induction ops as [|op ops IH]; intros s.
  - exists [], (ocount s). split; [by destruct s|]. by split.
  - cbn [driver_run]. destruct (oled_raises w (ocount s)) eqn:Hr.
    + exists [], (S (ocount s)). split; [by destruct s|].
      split; [apply prefix_nil|]. intros Hw. by rewrite Hw in Hr.
    + destruct (IH (set_ocount (S (ocount s)) (set_log (EOled op :: log s) s)))
        as (made & n & -> & Hpre & Hrel).
      exists (op :: made), n. split; [|split].
      * fields. rewrite fmap_cons, reverse_cons, <- app_assoc. reflexivity.
      * by apply prefix_cons.
      * intros Hw. by rewrite Hrel.
Qed.

(** When none of them raises, all the calls are made. *)
Lemma driver_run_ok w ops : ∀ s,
  driver_ok w (ocount s) (length ops) = true →
  driver_run w ops s =
  set_ocount (ocount s + length ops)
    (set_log (reverse (EOled <$> ops) ++ log s) s).
Proof.
  induction ops as [|op ops IH]; intros s Hok.
  - cbn. rewrite Nat.add_0_r. by destruct s.
  - cbn [driver_run length driver_ok] in *.
    apply andb_true_iff in Hok as [Hr Hok]. apply negb_true_iff in Hr.
    rewrite Hr, IH by exact Hok. fields.
    rewrite fmap_cons, reverse_cons, <- app_assoc, Nat.add_succ_r. reflexivity.
Qed.

(** Open every [try] block of driver calls in the goal. *)
Ltac drv :=
  unfold shown;
  repeat match goal with
  | |- context [driver_run ?w ?ops ?s] =>
    destruct (driver_run_spec w ops s) as (? & ? & -> & _ & _)
  end;
  cbn [final np oled_present button1_last_state button2_last_state
       last_button1_time last_button2_time last_activity_time
       display_sleeping current_effect current_color_index clock rcount
       ocount log
       set_np set_button1_last_state set_button2_last_state
       set_last_button1_time set_last_button2_time set_last_activity_time
       set_display_sleeping set_current_effect set_current_color_index
       set_clock set_rcount set_ocount set_log].

Lemma set_np_id s : set_np (np s) s = s.
Proof. destruct s; reflexivity. Qed.

(** Writing the same colour at every index of the strip. *)
Lemma fill_seq c m : ∀ k s rest,
  np s = replicate k c ++ rest → length rest = m →
  for_ (seq k m) (λ i, np_set i c) s = Done tt (set_np (replicate (k + m) c) s).
Proof.
  induction m as [|m IH]; intros k s rest Hnp Hlen.
  - destruct rest; [|discriminate]. rewrite app_nil_r in Hnp.
    rewrite Nat.add_0_r, <- Hnp. cbn. munfold. by rewrite set_np_id.
  - destruct rest as [|x rest]; [discriminate|].
    cbn [seq for_]. munfold. unfold np_set at 1.
    destruct (decide (k < length (np s))%nat) as [_|Hge].
    + erewrite (IH (S k) _ rest).
      * rewrite Nat.add_succ_r. reflexivity.
      * rewrite replicate_S_end, <- app_assoc.
        cbn [np set_np]. rewrite Hnp.
        replace k with (length (replicate k c) + 0)%nat at 1
          by (rewrite length_replicate; lia).
        rewrite insert_app_r. reflexivity.
      * cbn in Hlen. lia.
    + exfalso. apply Hge. rewrite Hnp, length_app, length_replicate. cbn. lia.
Qed.

Lemma fill_eq c s :
  length (np s) = LED_COUNT →
  for_ (range LED_COUNT) (λ i, np_set i c) s = Done tt (set_np (replicate LED_COUNT c) s).
Proof.
  intros Hlen. unfold range.
  apply (fill_seq c LED_COUNT 0%nat s (np s)); [reflexivity|exact Hlen].
Qed.

Lemma clear_eq s :
  length (np s) = LED_COUNT →
  clear s = Done tt (set_log (ENpWrite dark :: log s) (set_np dark s)).
Proof.
  intros Hlen. unfold clear. munfold. rewrite (fill_eq _ _ Hlen). reflexivity.
Qed.

Lemma set_all_eq r g b q s :
  length (np s) = LED_COUNT →
  set_all r g b q s =
  let frame := replicate LED_COUNT (scale r q, scale g q, scale b q) in
  Done tt (set_log (ENpWrite frame :: log s) (set_np frame s)).
Proof.
  intros Hlen. unfold set_all. munfold. rewrite (fill_eq _ _ Hlen). reflexivity.
Qed.

(** *** The three parts of [check_buttons], case by case *)

Lemma handle_button1_reject w smp s :
  edge1 s smp && debounced1 s smp = false →
  handle_button1 w smp s = Done false (set_button1_last_state (pin1 smp) s).
Proof.
  unfold edge1, debounced1, handle_button1. intros H. munfold.
  destruct (negb (pin1 smp) && button1_last_state s); [|reflexivity].
  cbn in H. rewrite H. reflexivity.
Qed.

Lemma handle_button1_wake w smp s :
  edge1 s smp = true → debounced1 s smp = true → display_sleeping s = true →
  handle_button1 w smp s =
  Done true (set_button1_last_state (pin1 smp)
    (set_last_button1_time (ticks smp)
      (set_last_activity_time (ticks smp)
        (final (display_wake w (wake_ticks smp) s))))).
Proof.
  unfold edge1, debounced1, handle_button1. intros He Hd Hs. munfold.
  rewrite He, Hd, Hs, display_wake_eq.
  destruct (negb (oled_present s)); reflexivity.
Qed.

Lemma handle_button1_change w smp s :
  length (np s) = LED_COUNT →
  edge1 s smp = true → debounced1 s smp = true → display_sleeping s = false →
  handle_button1 w smp s =
  let s1 := set_current_effect ((current_effect s + 1) mod length effect_names)%nat s in
  Done true (set_button1_last_state (pin1 smp)
    (set_last_button1_time (ticks smp)
      (set_last_activity_time (ticks smp)
        (shown w (set_log (ENpWrite dark :: log s1) (set_np dark s1)))))).
Proof.
  unfold edge1, debounced1, handle_button1. intros Hlen He Hd Hs. munfold.
  rewrite He, Hd, Hs. rewrite clear_eq by exact Hlen.
  rewrite update_display_eq. reflexivity.
Qed.

Lemma handle_button2_reject w smp s :
  edge2 s smp && debounced2 s smp = false →
  handle_button2 w smp s = Done false (set_button2_last_state (pin2 smp) s).
Proof.
  unfold edge2, debounced2, handle_button2. intros H. munfold.
  destruct (negb (pin2 smp) && button2_last_state s); [|reflexivity].
  cbn in H. rewrite H. reflexivity.
Qed.

Lemma handle_button2_wake w smp s :
  edge2 s smp = true → debounced2 s smp = true → display_sleeping s = true →
  handle_button2 w smp s =
  Done true (set_button2_last_state (pin2 smp)
    (set_last_button2_time (ticks smp)
      (set_last_activity_time (ticks smp)
        (final (display_wake w (wake_ticks smp) s))))).
Proof.
  unfold edge2, debounced2, handle_button2. intros He Hd Hs. munfold.
  rewrite He, Hd, Hs, display_wake_eq.
  destruct (negb (oled_present s)); reflexivity.
Qed.

Lemma handle_button2_change w smp s :
  edge2 s smp = true → debounced2 s smp = true → display_sleeping s = false →
  handle_button2 w smp s =
  Done true (set_button2_last_state (pin2 smp)
    (set_last_button2_time (ticks smp)
      (set_last_activity_time (ticks smp)
        (shown w (set_current_color_index
                  ((current_color_index s + 1) mod length colors)%nat s))))).
Proof.
  unfold edge2, debounced2, handle_button2. intros He Hd Hs. munfold.
  rewrite He, Hd, Hs, update_display_eq. reflexivity.
Qed.

Lemma check_timeout_eq w smp s :
  check_timeout w smp s =
  if negb (display_sleeping s) && oled_present s &&
     (ticks_diff (ticks smp) (last_activity_time s) >? DISPLAY_TIMEOUT)
  then
    let s1 := driver_run w [Fill0; Show; PowerOff] s in
    Done tt (if driver_ok w (ocount s) 3 then set_display_sleeping true s1 else s1)
  else Done tt s.
Proof.
  unfold check_timeout. rewrite display_sleep_eq.
  destruct (display_sleeping s), (oled_present s); reflexivity.
Qed.

Lemma ticks_diff_refl t : ticks_diff t t = 0.
Proof. unfold ticks_diff. rewrite Z.sub_diag. reflexivity. Qed.

(** *** Rules of the program logic *)

Lemma hoare_ret {A} (P : state → Prop) (a : A) Q R :
  (∀ s, P s → Q a s) → hoare P (mret a) Q R.
Proof. intros H s Hs. apply H, Hs. Qed.

Lemma hoare_bind {A B} P (m : M A) (k : A → M B) Q1 Q R :
  hoare P m Q1 R → (∀ a, hoare (Q1 a) (k a) Q R) → hoare P (m ≫= k) Q R.
Proof.
  intros Hm Hk s Hs. specialize (Hm s Hs). munfold.
  destruct (m s) as [a s'| |]; [apply (Hk a s' Hm)|exact Hm|exact Hm].
Qed.

Lemma hoare_conseq {A} (P P' : state → Prop) (m : M A) (Q Q' : A → state → Prop)
    (R R' : state → Prop) :
  hoare P' m Q' R' →
  (∀ s, P s → P' s) → (∀ a s, Q' a s → Q a s) → (∀ s, R' s → R s) →
  hoare P m Q R.
Proof.
  intros H HP HQ HR s Hs. specialize (H s (HP s Hs)).
  destruct (m s); auto.
Qed.

Lemma hoare_for_ {A} (I : state → Prop) R xs (body : A → M unit) :
  (∀ x, x ∈ xs → hoare I (body x) (λ _, I) R) →
  hoare I (for_ xs body) (λ _, I) R.
Proof.
  induction xs as [|x xs IH]; intros Hb.
  - apply hoare_ret. auto.
  - cbn [for_]. eapply hoare_bind.
    + apply Hb. left.
    + intros ?. apply IH. intros y Hy. apply Hb. by right.
Qed.

Lemma hoare_for_each {A} (I Qr : state → Prop) R xs (body : A → M bool) :
  (∀ x, x ∈ xs → hoare I (body x) (λ r s, if r then Qr s else I s) R) →
  hoare I (for_each xs body) (λ r s, if r then Qr s else I s) R.
Proof.
  induction xs as [|x xs IH]; intros Hb.
  - apply hoare_ret. auto.
  - cbn [for_each]. eapply hoare_bind.
    + apply Hb. left.
    + intros [|].
      * apply hoare_ret. auto.
      * apply IH. intros y Hy. apply Hb. by right.
Qed.

Lemma hoare_for_acc {A S} (J : S → state → Prop) R xs (body : A → S → M S) :
  (∀ x a, x ∈ xs → hoare (J a) (body x a) J R) →
  ∀ a, hoare (J a) (for_acc xs body a) J R.
Proof.
  induction xs as [|x xs IH]; intros Hb a.
  - apply hoare_ret. auto.
  - cbn [for_acc]. eapply hoare_bind.
    + apply Hb. left.
    + intros a'. apply IH. intros y b Hy. apply Hb. by right.
Qed.

Lemma hoare_while {S} (J : S → state → Prop) (Q R : state → Prop)
    (body : S → M (option S)) :
  (∀ st, hoare (J st) (body st)
           (λ r s, match r with None => Q s | Some st' => J st' s end) R) →
  (∀ st s, J st s → R s) →
  ∀ fuel st, hoare (J st) (while_true fuel body st) (λ _, Q) R.
Proof.
  intros Hb HJ. induction fuel as [|n IH]; intros st.
  - intros s Hs. cbn. eapply HJ, Hs.
  - cbn [while_true]. eapply hoare_bind.
    + apply Hb.
    + intros [st'|]; [apply IH|apply hoare_ret; auto].
Qed.

Lemma randint_range w a b s :
  a <= b →
  ∃ v, randint w a b s = Done v (set_rcount (S (rcount s)) s) ∧ a <= v <= b.
Proof.
  intros Hab. eexists. split; [reflexivity|].
  pose proof (Z.mod_pos_bound (draws w (rcount s)) (b - a + 1)). lia.
Qed.

(** *** What one entry into [check_buttons] changes *)

Lemma handle_button1_frame w smp s :
  len_ok s →
  ∃ s', handle_button1 w smp s = Done (accepted1 s smp) s' ∧
    len_ok s' ∧ clock s' = clock s ∧ rcount s' = rcount s ∧
    oled_present s' = oled_present s ∧
    button1_last_state s' = pin1 smp ∧
    button2_last_state s' = button2_last_state s ∧
    last_button2_time s' = last_button2_time s ∧
    last_button1_time s' =
      (if accepted1 s smp then ticks smp else last_button1_time s) ∧
    current_color_index s' = current_color_index s.
Proof.
  intros Hlen. unfold accepted1.
  destruct (edge1 s smp && debounced1 s smp) eqn:Hacc.
  - apply andb_true_iff in Hacc as [He Hd].
    destruct (display_sleeping s) eqn:Hs.
    + rewrite handle_button1_wake by assumption. eexists. split; [reflexivity|].
      rewrite display_wake_eq, Hs.
      destruct (negb (oled_present s)); drv; unfold len_ok; cbn; auto 10.
    + rewrite handle_button1_change by assumption. eexists. split; [reflexivity|].
      cbn zeta. drv. unfold len_ok. cbn. auto 10.
  - rewrite handle_button1_reject by assumption. eexists. split; [reflexivity|].
    cbn. auto 10.
Qed.

Lemma handle_button2_frame w smp s :
  ∃ s', handle_button2 w smp s = Done (accepted2 s smp) s' ∧
    np s' = np s ∧ clock s' = clock s ∧ rcount s' = rcount s ∧
    oled_present s' = oled_present s ∧
    button2_last_state s' = pin2 smp ∧
    button1_last_state s' = button1_last_state s ∧
    last_button1_time s' = last_button1_time s ∧
    last_button2_time s' =
      (if accepted2 s smp then ticks smp else last_button2_time s) ∧
    current_effect s' = current_effect s.
Proof.
  unfold accepted2.
  destruct (edge2 s smp && debounced2 s smp) eqn:Hacc.
  - apply andb_true_iff in Hacc as [He Hd].
    destruct (display_sleeping s) eqn:Hs.
    + rewrite handle_button2_wake by assumption. eexists. split; [reflexivity|].
      rewrite display_wake_eq, Hs.
      destruct (negb (oled_present s)); drv; cbn; auto 10.
    + rewrite handle_button2_change by assumption. eexists. split; [reflexivity|].
      drv. cbn. auto 10.
  - rewrite handle_button2_reject by assumption. eexists. split; [reflexivity|].
    cbn. auto 10.
Qed.

Lemma check_timeout_frame w smp s :
  ∃ s', check_timeout w smp s = Done tt s' ∧
    np s' = np s ∧ clock s' = clock s ∧ rcount s' = rcount s ∧
    oled_present s' = oled_present s ∧
    button1_last_state s' = button1_last_state s ∧
    button2_last_state s' = button2_last_state s ∧
    last_button1_time s' = last_button1_time s ∧
    last_button2_time s' = last_button2_time s ∧
    current_effect s' = current_effect s ∧
    current_color_index s' = current_color_index s.
Proof.
  rewrite check_timeout_eq.
  destruct (_ && _); [cbn zeta; destruct (driver_ok _ _ _)|];
    eexists; (split; [reflexivity|]); drv; cbn; auto 12.
Qed.

(** One entry reads one sample, returns normally, and answers whether one
    of the two presses was accepted. *)
Lemma check_buttons_frame w s :
  len_ok s →
  let smp := samples w (clock s) in
  ∃ s', check_buttons w s = Done (accepted1 s smp || accepted2 s smp) s' ∧
    len_ok s' ∧ clock s' = S (clock s) ∧ rcount s' = rcount s ∧
    oled_present s' = oled_present s ∧
    button1_last_state s' = pin1 smp ∧
    button2_last_state s' = pin2 smp ∧
    last_button1_time s' =
      (if accepted1 s smp then ticks smp else last_button1_time s) ∧
    last_button2_time s' =
      (if accepted2 s smp then ticks smp else last_button2_time s).
Proof.
  intros Hlen smp. unfold check_buttons. munfold. unfold next_sample. cbn.
  fold smp.
  set (s0 := set_clock (S (clock s)) (set_log (ECheck :: log s) s)).
  destruct (handle_button1_frame w smp s0 Hlen)
    as (s1 & -> & Hl1 & Hc1 & Hr1 & Ho1 & Hb1 & Hb2 & Ht2 & Ht1 & _).
  destruct (handle_button2_frame w smp s1)
    as (s2 & -> & Hn2 & Hc2 & Hr2 & Ho2 & Hb2' & Hb1' & Ht1' & Ht2' & _).
  destruct (check_timeout_frame w smp s2)
    as (s3 & -> & Hn3 & Hc3 & Hr3 & Ho3 & Hb13 & Hb23 & Ht13 & Ht23 & _).
  assert (Hacc2 : accepted2 s1 smp = accepted2 s smp).
  { unfold accepted2, edge2, debounced2. rewrite Hb2, Ht2. reflexivity. }
  rewrite Hacc2 in *. change (accepted1 s0 smp) with (accepted1 s smp) in *.
  eexists. split; [reflexivity|].
  unfold len_ok in *. rewrite Hn3, Hn2, Hc3, Hc2, Hc1, Hr3, Hr2, Hr1, Ho3, Ho2, Ho1.
  rewrite Hb13, Hb1', Hb1, Hb23, Hb2', Ht13, Ht1', Ht1, Ht23, Ht2', Ht2.
  auto 10.
Qed.

(** *** The colour wheel *)

Lemma wheel_in_range pos : 0 <= pos <= 255 → rgb_ok (wheel pos).
Proof.
  intros H. unfold wheel, rgb_ok, chan_ok.
  destruct (Z.ltb_spec pos 85); [lia|].
  destruct (Z.ltb_spec pos 170); lia.
Qed.

(** C8, as the code has it.  [wheel] is the three-segment ramp with
    breakpoints 85 and 170 and slopes [pos * 3] and [255 - pos * 3];
    [wheel 0] is pure green-channel (0, 255, 0); two neighbouring positions
    never differ by more than 3 in a channel, and across the breakpoint
    [wheel 84] and [wheel 85] differ by exactly 3; [wheel 255] is equal to
    [wheel 0]. *)
Theorem wheel_three_segments :
  (∀ pos, pos < 85 → wheel pos = (pos * 3, 255 - pos * 3, 0)) ∧
  (∀ pos, 85 <= pos < 170 →
     wheel pos = (255 - (pos - 85) * 3, 0, (pos - 85) * 3)) ∧
  (∀ pos, 170 <= pos →
     wheel pos = (0, (pos - 170) * 3, 255 - (pos - 170) * 3)) ∧
  wheel 0 = (0, 255, 0) ∧
  chan_dist (wheel 84) (wheel 85) = 3 ∧
  (∀ pos, 0 <= pos < 255 → chan_dist (wheel pos) (wheel (pos + 1)) <= 3) ∧
  wheel 255 = wheel 0.
Proof.
  repeat split; try reflexivity.
  - intros pos H. unfold wheel. destruct (Z.ltb_spec pos 85); [reflexivity|lia].
  - intros pos H. unfold wheel. destruct (Z.ltb_spec pos 85); [lia|].
    destruct (Z.ltb_spec pos 170); [reflexivity|lia].
  - intros pos H. unfold wheel. destruct (Z.ltb_spec pos 85); [lia|].
    destruct (Z.ltb_spec pos 170); [lia|reflexivity].
  - intros pos H. unfold wheel, chan_dist.
    destruct (Z.ltb_spec pos 85), (Z.ltb_spec (pos + 1) 85),
      (Z.ltb_spec pos 170), (Z.ltb_spec (pos + 1) 170); lia.
Qed.

Lemma wheel_three_segments_witness :
  wheel 100 = (255 - (100 - 85) * 3, 0, (100 - 85) * 3) ∧
  chan_dist (wheel 169) (wheel (169 + 1)) <= 3.
Proof.
  destruct wheel_three_segments as (_ & H2 & _ & _ & _ & H6 & _).
  split; [apply H2; lia|apply H6; lia].
Defined.

(** C8 as claimed fails at the breakpoint: the two colours are 3 apart. *)
Lemma wheel_boundary_not_within_1 : ¬ chan_dist (wheel 84) (wheel 85) <= 1.
Proof. vm_compute. intros H. apply H. reflexivity. Qed.

(** *** Rules for an invariant and a fact about the result *)

Lemma triple_ret {A} I R (a : A) (P : A → Prop) : P a → triple I R (mret a) P.
Proof. intros Ha s Hs. by split. Qed.

Lemma triple_bind {A B} I R (m : M A) (k : A → M B) (P : A → Prop) (Q : B → Prop) :
  triple I R m P → (∀ a, P a → triple I R (k a) Q) → triple I R (m ≫= k) Q.
Proof.
  intros Hm Hk s Hs. specialize (Hm s Hs). munfold.
  destruct (m s) as [a s'| |]; [|exact Hm|exact Hm].
  destruct Hm as [Ha Hs']. apply (Hk a Ha s' Hs').
Qed.

Lemma triple_weaken {A} I R (m : M A) (P Q : A → Prop) :
  triple I R m P → (∀ a, P a → Q a) → triple I R m Q.
Proof.
  intros Hm HPQ s Hs. specialize (Hm s Hs).
  destruct (m s) as [a s'| |]; [|exact Hm|exact Hm].
  destruct Hm. split; auto.
Qed.

Lemma triple_for_ {A} I R xs (body : A → M unit) :
  (∀ x, x ∈ xs → triple I R (body x) (λ _, True)) →
  triple I R (for_ xs body) (λ _, True).
Proof.
  induction xs as [|x xs IH]; intros Hb.
  - by apply triple_ret.
  - cbn [for_]. eapply triple_bind.
    + apply Hb. left.
    + intros ? _. apply IH. intros y Hy. apply Hb. by right.
Qed.

Lemma triple_for_each {A} I R xs (body : A → M bool) :
  (∀ x, x ∈ xs → triple I R (body x) (λ _, True)) →
  triple I R (for_each xs body) (λ _, True).
Proof.
  induction xs as [|x xs IH]; intros Hb.
  - by apply triple_ret.
  - cbn [for_each]. eapply triple_bind.
    + apply Hb. left.
    + intros [|] _; [by apply triple_ret|].
      apply IH. intros y Hy. apply Hb. by right.
Qed.

Lemma triple_for_acc {A S} I R xs (body : A → S → M S) (P : S → Prop) :
  (∀ x a, x ∈ xs → P a → triple I R (body x a) P) →
  ∀ a, P a → triple I R (for_acc xs body a) P.
Proof.
  induction xs as [|x xs IH]; intros Hb a Ha.
  - by apply triple_ret.
  - cbn [for_acc]. eapply triple_bind.
    + apply Hb; [left|exact Ha].
    + intros a' Ha'. apply IH; [|exact Ha'].
      intros y b Hy. apply Hb. by right.
Qed.

Lemma triple_while {S} I R (body : S → M (option S)) (P : S → Prop) :
  (∀ s, I s → R s) →
  (∀ st, P st → triple I R (body st)
                  (λ r, match r with None => True | Some st' => P st' end)) →
  ∀ fuel st, P st → triple I R (while_true fuel body st) (λ _, True).
Proof.
  intros HIR Hb. induction fuel as [|n IH]; intros st Hst.
  - intros s Hs. cbn. by apply HIR.
  - cbn [while_true]. eapply triple_bind.
    + by apply Hb.
    + intros [st'|] Hr; [by apply IH|by apply triple_ret].
Qed.

Lemma triple_turns {S} I R (body : S → M (option S)) (P : S → Prop) :
  (∀ st, P st → triple I R (body st)
                  (λ r, match r with None => True | Some st' => P st' end)) →
  ∀ n st, P st →
    triple I R (turns n body st)
      (λ r, match r with None => True | Some st' => P st' end).
Proof.
  intros Hb. induction n as [|n IH]; intros st Hst.
  - by apply triple_ret.
  - cbn [turns]. eapply triple_bind.
    + by apply Hb.
    + intros [st'|] Hr; [by apply IH|by apply triple_ret].
Qed.

Lemma triple_subscript {A} I R (l : list A) i :
  (l !! i = None → ∀ s, I s → R s) →
  triple I R (subscript l i) (λ x, l !! i = Some x).
Proof.
  intros HR s Hs. unfold subscript.
  destruct (l !! i) eqn:E; [by split|]. by apply HR.
Qed.

Lemma triple_assign {A} I R (l : list A) i v :
  ((length l ≤ i)%nat → ∀ s, I s → R s) →
  triple I R (assign l i v) (λ l', l' = <[i:=v]> l ∧ (i < length l)%nat).
Proof.
  intros HR s Hs. unfold assign.
  destruct (decide (i < length l)%nat); [by repeat split|].
  apply HR; [lia|exact Hs].
Qed.

Lemma triple_randint I R w a b :
  a <= b → (∀ s n, I s → I (set_rcount n s)) →
  triple I R (randint w a b) (λ v, a <= v <= b).
Proof.
  intros Hab Hst s Hs. destruct (randint_range w a b s Hab) as (v & -> & Hv).
  split; [exact Hv|by apply Hst].
Qed.

Lemma triple_modify I R (f : state → state) :
  (∀ s, I s → I (f s)) → triple I R (modify f) (λ _, True).
Proof. intros Hf s Hs. split; [done|by apply Hf]. Qed.

Lemma triple_gets {A} I R (f : state → A) : triple I R (gets f) (λ _, True).
Proof. intros s Hs. by split. Qed.

(** *** Fire: the heat array *)

Lemma elem_of_range i n : i ∈ range n → (i < n)%nat.
Proof. unfold range. rewrite elem_of_seq. lia. Qed.

Lemma elem_of_range_down i hi lo : i ∈ range_down hi lo → (lo < i ≤ hi)%nat.
Proof. unfold range_down. rewrite elem_of_reverse, elem_of_seq. lia. Qed.

Lemma heat_lookup heat i t : heat_ok heat → heat !! i = Some t → chan_ok t.
Proof. intros Hok Ht. eapply Forall_lookup_1; eauto. Qed.

Lemma heat_inv_insert heat i t :
  heat_inv heat → chan_ok t → heat_inv (<[i:=t]> heat).
Proof.
  intros [Hok Hlen] Ht. split; [by apply Forall_insert|by rewrite length_insert].
Qed.

Lemma heat_inv_lookup heat i :
  heat_inv heat → (i < LED_COUNT)%nat → heat !! i ≠ None.
Proof.
  intros [_ Hlen] Hi. rewrite <- Hlen in Hi.
  apply lookup_lt_is_Some_2 in Hi as [t Ht]. congruence.
Qed.

Section FireHeat.
Context (I R : state → Prop) (w : world).
Hypothesis I_rcount : ∀ s n, I s → I (set_rcount n s).

Lemma fire_cool_triple heat :
  heat_inv heat → triple I R (fire_cool w heat) heat_inv.
Proof.
  unfold fire_cool. apply triple_for_acc. intros i h Hi%elem_of_range Hh.
  eapply triple_bind.
  { apply triple_subscript. intros Hn. by destruct (heat_inv_lookup h i). }
  intros t Ht. eapply triple_bind.
  { by apply triple_randint. }
  intros c Hc. cbn beta in Hc. eapply triple_weaken.
  { apply triple_assign. destruct Hh as [_ Hlen]. lia. }
  intros h' [-> _]. apply heat_inv_insert; [exact Hh|].
  apply (heat_lookup _ _ _ (proj1 Hh)) in Ht. unfold chan_ok in *.
  change (cooling * 10 / Z.of_nat LED_COUNT + 2) with 3 in Hc. lia.
Qed.

Lemma fire_drift_triple heat :
  heat_inv heat → triple I R (fire_drift heat) heat_inv.
Proof.
  unfold fire_drift. apply triple_for_acc. intros i h Hi%elem_of_range_down Hh.
  unfold LED_COUNT in Hi.
  eapply triple_bind.
  { apply triple_subscript. intros Hn.
    destruct (heat_inv_lookup h (i - 1)); [done|unfold LED_COUNT; lia|done]. }
  intros a Ha. eapply triple_bind.
  { apply triple_subscript. intros Hn.
    destruct (heat_inv_lookup h (i - 2)); [done|unfold LED_COUNT; lia|done]. }
  intros b Hb. eapply triple_weaken.
  { apply triple_assign. destruct Hh as [_ Hlen]. unfold LED_COUNT in Hlen. lia. }
  intros h' [-> _]. apply heat_inv_insert; [exact Hh|].
  apply (heat_lookup _ _ _ (proj1 Hh)) in Ha, Hb. unfold chan_ok in *.
  split; [apply Z.div_pos; lia|apply Z.div_le_upper_bound; lia].
Qed.

Lemma fire_spark_triple heat :
  heat_inv heat → triple I R (fire_spark w heat) heat_inv.
Proof.
  intros Hh. unfold fire_spark. eapply triple_bind.
  { by apply (triple_randint I R w 0 255). }
  intros p Hp. cbn beta in Hp. destruct (p <? sparking); [|by apply triple_ret].
  eapply triple_bind.
  { by apply triple_randint. }
  change (Z.min 7 (Z.of_nat LED_COUNT - 1)) with 7. intros y Hy. cbn beta in Hy.
  eapply triple_bind.
  { apply triple_subscript. intros Hn.
    destruct (heat_inv_lookup heat (Z.to_nat y)); [done|unfold LED_COUNT; lia|done]. }
  intros t Ht. eapply triple_bind.
  { by apply (triple_randint I R w 160 255). }
  intros d Hd. cbn beta in Hd. eapply triple_weaken.
  { apply triple_assign. destruct Hh as [_ Hlen]. unfold LED_COUNT in Hlen. lia. }
  intros h' [-> _]. apply heat_inv_insert; [exact Hh|].
  apply (heat_lookup _ _ _ (proj1 Hh)) in Ht. unfold chan_ok in *. lia.
Qed.
End FireHeat.

Lemma heat_initial : heat_inv (replicate LED_COUNT 0).
Proof.
  split; [|apply length_replicate].
  apply Forall_replicate. unfold chan_ok. lia.
Qed.

(** *** The events of one entry into [check_buttons] *)

Lemma oled_events ops : Forall button_ev (reverse (EOled <$> ops)).
Proof.
  apply Forall_reverse, Forall_fmap, Forall_forall. intros op _. exact I.
Qed.

Lemma display_wake_log w t s :
  ∃ evs, log (final (display_wake w t s)) = evs ++ log s ∧ Forall button_ev evs ∧
    np (final (display_wake w t s)) = np s.
Proof.
  rewrite display_wake_eq. destruct (negb (oled_present s)).
  { exists []. by repeat split. }
  destruct (display_sleeping s); drv.
  - eexists (_ ++ _). rewrite <- app_assoc. split; [reflexivity|].
    split; [|reflexivity]. apply Forall_app. split; apply oled_events.
  - eexists. split; [reflexivity|]. split; [apply oled_events|reflexivity].
Qed.

Lemma handle_button1_log w smp s :
  len_ok s →
  ∃ evs, log (final (handle_button1 w smp s)) = evs ++ log s ∧
    Forall button_ev evs ∧
    (np (final (handle_button1 w smp s)) = np s ∨
     np (final (handle_button1 w smp s)) = dark).
Proof.
  intros Hlen.
  destruct (edge1 s smp && debounced1 s smp) eqn:Hacc.
  - apply andb_true_iff in Hacc as [He Hd].
    destruct (display_sleeping s) eqn:Hs.
    + rewrite handle_button1_wake by assumption. cbn.
      destruct (display_wake_log w (wake_ticks smp) s) as (evs & E & Hev & Hnp).
      exists evs. auto.
    + rewrite handle_button1_change by assumption. cbn zeta. drv.
      eexists (_ ++ [ENpWrite dark]). rewrite <- app_assoc.
      split; [reflexivity|]. split; [|by right].
      apply Forall_app. split; [apply oled_events|by repeat constructor].
  - rewrite handle_button1_reject by assumption. exists []. by repeat split; left.
Qed.

Lemma handle_button2_log w smp s :
  ∃ evs, log (final (handle_button2 w smp s)) = evs ++ log s ∧
    Forall button_ev evs.
Proof.
  destruct (edge2 s smp && debounced2 s smp) eqn:Hacc.
  - apply andb_true_iff in Hacc as [He Hd].
    destruct (display_sleeping s) eqn:Hs.
    + rewrite handle_button2_wake by assumption. cbn.
      destruct (display_wake_log w (wake_ticks smp) s) as (evs & E & Hev & Hnp).
      exists evs. auto.
    + rewrite handle_button2_change by assumption. drv.
      eexists. split; [reflexivity|]. apply oled_events.
  - rewrite handle_button2_reject by assumption. exists []. by repeat split.
Qed.

Lemma check_timeout_log w smp s :
  ∃ evs, log (final (check_timeout w smp s)) = evs ++ log s ∧
    Forall button_ev evs.
Proof.
  rewrite check_timeout_eq.
  destruct (_ && _); [cbn zeta; destruct (driver_ok _ _ _)|]; drv.
  - eexists. split; [reflexivity|apply oled_events].
  - eexists. split; [reflexivity|apply oled_events].
  - exists []. by split.
Qed.

Lemma check_buttons_log w s :
  len_ok s →
  ∃ evs, log (final (check_buttons w s)) = evs ++ ECheck :: log s ∧
    Forall button_ev evs ∧
    (np (final (check_buttons w s)) = np s ∨
     np (final (check_buttons w s)) = dark).
Proof.
  intros Hlen. unfold check_buttons. munfold. unfold next_sample. cbn.
  set (smp := samples w (clock s)).
  set (s0 := set_clock (S (clock s)) (set_log (ECheck :: log s) s)).
  destruct (handle_button1_log w smp s0 Hlen) as (e1 & L1 & F1 & N1).
  destruct (handle_button1_frame w smp s0 Hlen) as (s1 & E1 & _).
  rewrite E1 in *. cbn in L1, N1.
  destruct (handle_button2_log w smp s1) as (e2 & L2 & F2).
  destruct (handle_button2_frame w smp s1) as (s2 & E2 & N2 & _).
  rewrite E2 in *. cbn in L2.
  destruct (check_timeout_log w smp s2) as (e3 & L3 & F3).
  destruct (check_timeout_frame w smp s2) as (s3 & E3 & N3 & _).
  rewrite E3 in *. cbn in L3. cbn.
  exists (e3 ++ e2 ++ e1). split.
  - rewrite L3, L2, L1. by rewrite <- !app_assoc.
  - split; [by repeat (apply Forall_app; split)|].
    rewrite N3, N2. exact N1.
Qed.

(** *** Colours stay in range *)

Lemma scale_ok c q : chan_ok c → (0 <= q <= 1)%Q → chan_ok (scale c q).
Proof.
  unfold scale, int, chan_ok. destruct q as [n d]. unfold Qle. cbn.
  intros Hc [H0 H1]. rewrite Z.quot_div_nonneg by nia.
  split; [apply Z.div_pos; nia|apply Z.div_le_upper_bound; nia].
Qed.

Lemma scale_rgb_ok c q : rgb_ok c → (0 <= q <= 1)%Q → rgb_ok (scale_rgb c q).
Proof.
  destruct c as [[r g] b]. intros (Hr & Hg & Hb) Hq.
  repeat split; by apply scale_ok.
Qed.

Lemma default_brightness_unit : (0 <= 3 # 10 <= 1)%Q.
Proof. split; discriminate. Qed.

Lemma colors_ok : Forall rgb_ok colors.
Proof. repeat constructor; unfold chan_ok; lia. Qed.

Lemma aurora_colors_ok : Forall rgb_ok aurora_colors.
Proof. repeat constructor; unfold chan_ok; lia. Qed.

Lemma black_ok : rgb_ok (0, 0, 0).
Proof. repeat split; lia. Qed.

Lemma pulse_brightness_unit k :
  (k ≤ pulse_steps)%nat →
  (0 <= inject_Z (Z.of_nat k) / inject_Z (Z.of_nat pulse_steps) * (1 # 2) <= 1)%Q.
Proof.
  unfold pulse_steps. intros Hk.
  change (inject_Z (Z.of_nat 50)) with (50 # 1)%Q.
  unfold Qle. cbn. lia.
Qed.

Lemma breathing_brightness_unit w x :
  (-1 <= math_sin w x <= 1)%Q → (0 <= breathing_brightness w x <= 1)%Q.
Proof.
  unfold breathing_brightness, Qdiv. change (/ 2)%Q with (1 # 2)%Q.
  intros H. lra.
Qed.

Lemma land_255_range x : 0 <= Z.land x 255 <= 255.
Proof.
  replace (Z.land x 255) with (x mod 256).
  - pose proof (Z.mod_pos_bound x 256). lia.
  - symmetry. apply (Z.land_ones x 8). lia.
Qed.

Lemma blend_ok a b frac :
  chan_ok a → chan_ok b → 0 <= frac <= 255 → chan_ok (blend a b frac).
Proof.
  unfold blend, chan_ok. intros Ha Hb Hf. rewrite Z.shiftr_div_pow2 by lia.
  change (2 ^ 8) with 256.
  split; [apply Z.div_pos; nia|apply Z.div_le_upper_bound; nia].
Qed.

Lemma heat_color_ok t : chan_ok t → rgb_ok (heat_color t).
Proof.
  unfold heat_color, rgb_ok, chan_ok. intros Ht.
  destruct (Z.gtb_spec t 170); [lia|].
  destruct (Z.gtb_spec t 85); lia.
Qed.

Lemma hoare_bind_triple {A C} I R (m : M A) (k : A → M C) (P : A → Prop) Q :
  triple I R m P → (∀ a, P a → hoare I (k a) Q R) → hoare I (m ≫= k) Q R.
Proof.
  intros Hm Hk. eapply hoare_bind; [exact Hm|].
  intros a s [Ha Hs]. by apply Hk.
Qed.

Lemma hoare_seq_quiet {A C} I R (m : M A) (k : A → M C) Q :
  triple I R m (λ _, True) → (∀ a, hoare I (k a) Q R) → hoare I (m ≫= k) Q R.
Proof. intros Hm Hk. eapply hoare_bind_triple; [exact Hm|]. intros a _. apply Hk. Qed.

Lemma hoare_pre {A} (P P0 : state → Prop) (m : M A) Q R :
  (∀ s, P s → P0 s) → hoare P0 m Q R → hoare P m Q R.
Proof. intros HP H s Hs. apply H, HP, Hs. Qed.

(** *** Every effect keeps an invariant of the primitives

    The effects reach the state only through [check_buttons], [np_set],
    [np_write], [sleep_ms] and [randint].  An invariant [I] that these keep
    is therefore kept by every effect; [okc] is what [I] needs of a colour
    to let it into the strip. *)

Lemma triple_seq {A B} I R (m : M A) (k : A → M B) (Q : B → Prop) :
  triple I R m (λ _, True) → (∀ a, triple I R (k a) Q) → triple I R (m ≫= k) Q.
Proof. intros Hm Hk. eapply triple_bind; [exact Hm|]. intros a _. apply Hk. Qed.

Lemma triple_if {A} I R (b : bool) (m1 m2 : M A) (P : A → Prop) :
  triple I R m1 P → triple I R m2 P → triple I R (if b then m1 else m2) P.
Proof. by destruct b. Qed.

Section EffectInvariant.
Context (I R : state → Prop) (w : world) (okc : rgb → Prop).
Hypothesis okc_rgb : ∀ c, rgb_ok c → okc c.
Hypothesis okc_breathing :
  ∀ c x, c ∈ colors → okc (scale_rgb c (breathing_brightness w x)).
Hypothesis I_exit : ∀ s, I s → R s.
Hypothesis I_rcount : ∀ s n, I s → I (set_rcount n s).
Hypothesis I_check : triple I R (check_buttons w) (λ _, True).
Hypothesis I_np_set : ∀ i c, okc c → triple I R (np_set i c) (λ _, True).
Hypothesis I_np_write : triple I R np_write (λ _, True).
Hypothesis I_sleep : ∀ ms, triple I R (sleep_ms ms) (λ _, True).

Ltac tseq := apply triple_seq; [|intros ?].
Ltac tdone := by apply triple_ret.

Lemma clear_inv : triple I R clear (λ _, True).
Proof.
  unfold clear. tseq; [|apply I_np_write].
  apply triple_for_. intros i _. apply I_np_set, okc_rgb, black_ok.
Qed.

Lemma set_color_inv i r g b q :
  okc (scale_rgb (r, g, b) q) → triple I R (set_color i r g b q) (λ _, True).
Proof.
  intros Hc. unfold set_color. tseq; [|apply I_np_write]. by apply I_np_set.
Qed.

Lemma set_all_inv r g b q :
  okc (scale_rgb (r, g, b) q) → triple I R (set_all r g b q) (λ _, True).
Proof.
  intros Hc. unfold set_all. tseq; [|apply I_np_write].
  apply triple_for_. intros i _. by apply I_np_set.
Qed.

Lemma current_color_inv : triple I R current_color (λ c, c ∈ colors).
Proof.
  unfold current_color. eapply triple_bind; [apply triple_gets|].
  intros idx _. eapply triple_weaken.
  - apply triple_subscript. intros _. exact I_exit.
  - intros c Hc. cbn beta in Hc. eapply list_elem_of_lookup_2, Hc.
Qed.

Lemma okc_scaled c q : c ∈ colors → (0 <= q <= 1)%Q → okc (scale_rgb c q).
Proof.
  intros Hc Hq. apply okc_rgb, scale_rgb_ok; [|exact Hq].
  eapply Forall_forall; [apply colors_ok|exact Hc].
Qed.

Lemma effect_all_on_inv : triple I R effect_all_on (λ _, True).
Proof.
  unfold effect_all_on. eapply triple_bind; [apply current_color_inv|].
  intros [[r g] b] Hc. tseq; [|apply I_sleep].
  apply set_all_inv, okc_scaled; [exact Hc|apply default_brightness_unit].
Qed.

Lemma effect_rainbow_cycle_inv : triple I R (effect_rainbow_cycle w) (λ _, True).
Proof.
  unfold effect_rainbow_cycle. tseq; [|tdone].
  apply triple_for_each. intros j _. tseq; [apply I_check|].
  apply triple_if; [tdone|]. tseq; [|tseq; [apply I_sleep|tdone]].
  apply triple_for_. intros i _.
  pose proof (wheel_in_range
    (Z.land (Z.of_nat i * 256 / Z.of_nat LED_COUNT + Z.of_nat j) 255)) as Hw.
  destruct (wheel _) as [[r g] b]. apply set_color_inv, okc_rgb.
  apply (scale_rgb_ok (r, g, b)); [|apply default_brightness_unit].
  apply Hw. apply land_255_range.
Qed.

Lemma effect_color_wipe_inv : triple I R (effect_color_wipe w) (λ _, True).
Proof.
  unfold effect_color_wipe. eapply triple_bind; [apply current_color_inv|].
  intros [[r g] b] Hc. tseq.
  - apply triple_for_each. intros i _. tseq; [apply I_check|].
    apply triple_if; [tdone|]. tseq; [|tseq; [apply I_sleep|tdone]].
    apply set_color_inv, okc_scaled; [exact Hc|apply default_brightness_unit].
  - apply triple_if; [tdone|]. tseq; [apply I_sleep|]. tseq; [|tdone].
    apply triple_for_each. intros i _. tseq; [apply I_check|].
    apply triple_if; [tdone|]. tseq; [|tseq; [apply I_sleep|tdone]].
    apply set_color_inv, okc_rgb, black_ok.
Qed.

Lemma effect_theater_chase_inv : triple I R (effect_theater_chase w) (λ _, True).
Proof.
  unfold effect_theater_chase. eapply triple_bind; [apply current_color_inv|].
  intros [[r g] b] Hc. tseq; [|tdone].
  apply triple_for_each. intros j _. tseq; [apply I_check|].
  apply triple_if; [tdone|]. tseq; [|tdone].
  apply triple_for_. intros q _. tseq.
  - apply triple_for_. intros i _. apply triple_if; [|tdone].
    apply set_color_inv, okc_scaled; [exact Hc|apply default_brightness_unit].
  - tseq; [apply I_sleep|]. tseq; [apply clear_inv|apply I_sleep].
Qed.

Lemma pulse_step_inv r g b k :
  (r, g, b) ∈ colors → (k ≤ pulse_steps)%nat →
  triple I R (pulse_step w r g b k) (λ _, True).
Proof.
  intros Hc Hk. unfold pulse_step. tseq; [apply I_check|].
  apply triple_if; [tdone|]. tseq; [|tseq; [apply I_sleep|tdone]].
  apply set_all_inv, okc_scaled; [exact Hc|by apply pulse_brightness_unit].
Qed.

Lemma effect_pulse_inv : triple I R (effect_pulse w) (λ _, True).
Proof.
  unfold effect_pulse. eapply triple_bind; [apply current_color_inv|].
  intros [[r g] b] Hc. tseq.
  - apply triple_for_each. intros k Hk%elem_of_range.
    apply pulse_step_inv; [exact Hc|lia].
  - apply triple_if; [tdone|]. tseq; [|tdone].
    apply triple_for_each. intros k Hk%elem_of_range_down.
    apply pulse_step_inv; [exact Hc|lia].
Qed.

Lemma running_step_inv r g b i :
  (r, g, b) ∈ colors → triple I R (running_step w r g b i) (λ _, True).
Proof.
  intros Hc. unfold running_step. tseq; [apply I_check|].
  apply triple_if; [tdone|]. tseq; [apply clear_inv|].
  tseq; [|tseq; [apply I_sleep|tdone]].
  apply set_color_inv, okc_scaled; [exact Hc|apply default_brightness_unit].
Qed.

Lemma effect_running_light_inv : triple I R (effect_running_light w) (λ _, True).
Proof.
  unfold effect_running_light. eapply triple_bind; [apply current_color_inv|].
  intros [[r g] b] Hc. tseq.
  - apply triple_for_each. intros i _. by apply running_step_inv.
  - apply triple_if; [tdone|]. tseq; [|tdone].
    apply triple_for_each. intros i _. by apply running_step_inv.
Qed.
Lemma aurora_pixel_inv offset i : triple I R (aurora_pixel offset i) (λ _, True).
Proof.
  unfold aurora_pixel.
  eapply triple_bind; [apply triple_subscript; intros _; exact I_exit|].
  intros [[r1 g1] b1] H1%list_elem_of_lookup_2.
  eapply triple_bind; [apply triple_subscript; intros _; exact I_exit|].
  intros [[r2 g2] b2] H2%list_elem_of_lookup_2.
  pose proof (proj1 (Forall_forall _ _) aurora_colors_ok _ H1) as (?&?&?).
  pose proof (proj1 (Forall_forall _ _) aurora_colors_ok _ H2) as (?&?&?).
  apply I_np_set, okc_rgb.
  match goal with |- context [blend _ _ (?p mod 256)] =>
    pose proof (Z.mod_pos_bound p 256) end.
  repeat split; (apply scale_ok; [apply blend_ok; [done|done|lia]
                                 |apply default_brightness_unit]).
Qed.

Lemma aurora_frame_inv offset :
  triple I R (aurora_frame w offset) (λ _, True).
Proof.
  unfold aurora_frame. tseq; [apply I_check|]. apply triple_if; [tdone|].
  tseq; [apply triple_for_; intros i _; apply aurora_pixel_inv|].
  tseq; [apply I_np_write|]. tseq; [apply I_sleep|tdone].
Qed.

Lemma effect_aurora_inv fuel : triple I R (effect_aurora w fuel) (λ _, True).
Proof.
  unfold effect_aurora. apply (triple_while I R _ (λ _, True)); [exact I_exit| |done].
  intros offset _. eapply triple_weaken; [apply aurora_frame_inv|].
  by intros [?|].
Qed.

Lemma fire_render_inv heat :
  heat_inv heat → triple I R (fire_render heat) (λ _, True).
Proof.
  intros Hh. unfold fire_render. tseq; [|apply I_np_write].
  apply triple_for_. intros i _.
  eapply triple_bind; [apply triple_subscript; intros _; exact I_exit|].
  intros t Ht. cbn beta in Ht. apply (heat_lookup _ _ _ (proj1 Hh)) in Ht.
  pose proof (heat_color_ok t Ht) as Hc.
  destruct (heat_color t) as [[r g] b].
  apply I_np_set, okc_rgb.
  apply (scale_rgb_ok (r, g, b)); [exact Hc|apply default_brightness_unit].
Qed.

Lemma fire_frame_inv heat :
  heat_inv heat →
  triple I R (fire_frame w heat)
    (λ r, match r with None => True | Some h => heat_inv h end).
Proof.
  intros Hh. unfold fire_frame. tseq; [apply I_check|].
  apply triple_if; [tdone|].
  eapply triple_bind; [by apply fire_cool_triple|]. intros h1 H1.
  eapply triple_bind; [by apply fire_drift_triple|]. intros h2 H2.
  eapply triple_bind; [by apply fire_spark_triple|]. intros h3 H3.
  tseq; [by apply fire_render_inv|]. tseq; [apply I_sleep|tdone].
Qed.

Lemma effect_fire_inv fuel : triple I R (effect_fire w fuel) (λ _, True).
Proof.
  unfold effect_fire.
  apply (triple_while I R _ heat_inv); [exact I_exit| |apply heat_initial].
  intros heat Hh. by apply fire_frame_inv.
Qed.

Lemma breathing_frame_inv r g b step :
  (r, g, b) ∈ colors →
  triple I R (breathing_frame w r g b step) (λ _, True).
Proof.
  intros Hc. unfold breathing_frame. tseq; [apply I_check|].
  apply triple_if; [tdone|]. tseq.
  - apply set_all_inv. apply (okc_breathing (r, g, b) step Hc).
  - cbn zeta. tseq; [apply I_sleep|tdone].
Qed.

Lemma effect_breathing_inv fuel :
  triple I R (effect_breathing w fuel) (λ _, True).
Proof.
  unfold effect_breathing. eapply triple_bind; [apply current_color_inv|].
  intros [[r g] b] Hc.
  apply (triple_while I R _ (λ _, True)); [exact I_exit| |done].
  intros step _. eapply triple_weaken; [by apply breathing_frame_inv|].
  by intros [?|].
Qed.

Lemma effect_off_inv : triple I R effect_off (λ _, True).
Proof. unfold effect_off. tseq; [apply clear_inv|apply I_sleep]. Qed.

Lemma run_effect_inv fuel e : triple I R (run_effect w fuel e) (λ _, True).
Proof.
  destruct e as [|[|[|[|[|[|[|[|[|[|e]]]]]]]]]]; cbn [run_effect].
  - apply effect_all_on_inv.
  - apply effect_rainbow_cycle_inv.
  - apply effect_color_wipe_inv.
  - apply effect_theater_chase_inv.
  - apply effect_pulse_inv.
  - apply effect_running_light_inv.
  - apply effect_aurora_inv.
  - apply effect_fire_inv.
  - apply effect_breathing_inv.
  - apply effect_off_inv.
  - tdone.
Qed.

Hypothesis I_update_display : triple I R (update_display w) (λ _, True).
Hypothesis I_activity : ∀ s t, I s → I (set_last_activity_time t s).

Lemma main_loop_inv fuel n : triple I R (main_loop w fuel n) (λ _, True).
Proof.
  induction n as [|n IH]; cbn [main_loop].
  - intros s Hs. by apply I_exit.
  - tseq; [apply I_check|]. eapply triple_bind; [apply triple_gets|].
    intros e _. tseq; [apply run_effect_inv|]. tseq; [apply I_sleep|apply IH].
Qed.

Lemma main_inv fuel : triple I R (main w fuel) (λ _, True).
Proof.
  unfold main. tseq; [apply clear_inv|]. tseq; [apply I_sleep|].
  tseq; [apply I_update_display|].
  tseq; [apply triple_modify; intros s Hs; by apply I_activity|].
  tseq; [apply I_sleep|apply main_loop_inv].
Qed.
End EffectInvariant.

(** *** The strip and the frames written hold channel values only *)

Lemma dark_ok : strip_ok dark.
Proof. apply Forall_replicate, black_ok. Qed.

Lemma button_ev_ok evs : Forall button_ev evs → Forall event_ok evs.
Proof.
  intros Hev. eapply Forall_impl; [exact Hev|].
  intros [| |f|] H; try exact I. cbn in H. subst f. apply dark_ok.
Qed.

Lemma good_check w : triple good good (check_buttons w) (λ _, True).
Proof.
  intros s (Hlen & Hnp & Hlog).
  destruct (check_buttons_log w s Hlen) as (evs & L & Hev & N).
  destruct (check_buttons_frame w s Hlen) as (s' & E & Hlen' & _).
  rewrite E in *. cbn in L, N. split; [done|]. split; [exact Hlen'|]. split.
  - destruct N as [-> | ->]; [exact Hnp|apply dark_ok].
  - rewrite L. apply Forall_app. split; [by apply button_ev_ok|].
    by constructor.
Qed.

Lemma good_np_set i c : rgb_ok c → triple good good (np_set i c) (λ _, True).
Proof.
  intros Hc s (Hlen & Hnp & Hlog). unfold np_set.
  destruct (decide _); [|by repeat split]. split; [done|].
  split; [unfold len_ok in *; cbn; by rewrite length_insert|].
  split; [by apply Forall_insert|exact Hlog].
Qed.

Lemma good_np_write : triple good good np_write (λ _, True).
Proof.
  intros s (Hlen & Hnp & Hlog). split; [done|].
  split; [exact Hlen|]. split; [exact Hnp|]. by constructor.
Qed.

Lemma good_sleep ms : triple good good (sleep_ms ms) (λ _, True).
Proof.
  intros s (Hlen & Hnp & Hlog). split; [done|].
  split; [exact Hlen|]. split; [exact Hnp|]. by constructor.
Qed.

Lemma good_run_effect w fuel e :
  (∀ x, (-1 <= math_sin w x <= 1)%Q) →
  triple good good (run_effect w fuel e) (λ _, True).
Proof.
  intros Hsin.
  apply (run_effect_inv good good w rgb_ok); try done.
  - intros c x Hc. apply scale_rgb_ok.
    + eapply Forall_forall; [apply colors_ok|exact Hc].
    + apply breathing_brightness_unit, Hsin.
  - apply good_check.
  - apply good_np_set.
  - apply good_np_write.
  - apply good_sleep.
Qed.

Lemma good_init present : good (init_state present).
Proof. split; [apply length_replicate|]. split; [apply dark_ok|constructor]. Qed.

(** [int] cuts the fraction off. *)
Lemma scale_truncates c q :
  0 <= c → (0 <= q)%Q →
  (inject_Z (scale c q) <= inject_Z c * q < inject_Z (scale c q) + 1)%Q.
Proof.
  unfold scale, int. destruct q as [n d]. unfold Qle, Qlt. cbn.
  intros Hc Hn. rewrite Z.quot_div_nonneg by nia.
  change (Z.pos (1 * d)) with (Z.pos d). change (Z.pos (1 * 1)) with 1.
  pose proof (Z.mul_div_le (c * n) (Z.pos d)).
  pose proof (Z.mul_succ_div_gt (c * n) (Z.pos d)).
  set (k := c * n `div` Z.pos d) in *. lia.
Qed.

Lemma square_wave_range x : (-1 <= square_wave x <= 1)%Q.
Proof. unfold square_wave. destruct (Qle_bool _ _); split; discriminate. Qed.



(** *** Running without the display *)

Lemma shown_headless w s : oled_present s = false → shown w s = s.
Proof.
  intros Ho. unfold shown, status_ops. rewrite Ho. cbn. by destruct s.
Qed.

Lemma handle_button1_headless w smp s :
  headless s →
  ∃ s', handle_button1 w smp s = Done (accepted1 s smp) s' ∧ headless s' ∧
    log s' = (if accepted1 s smp then ENpWrite dark :: log s else log s) ∧
    (accepted1 s smp = true →
       current_effect s' = ((current_effect s + 1) mod 10)%nat ∧ np s' = dark).
Proof.
  intros (Hlen & Ho & Hs & Hlog). unfold accepted1.
  destruct (edge1 s smp && debounced1 s smp) eqn:Hacc.
  - apply andb_true_iff in Hacc as [He Hd].
    rewrite handle_button1_change by assumption. cbn zeta.
    rewrite shown_headless by exact Ho.
    eexists. split; [reflexivity|]. split; [|by split].
    split; [apply length_replicate|]. split; [exact Ho|]. split; [exact Hs|].
    cbn. by constructor.
  - rewrite handle_button1_reject by assumption.
    eexists. split; [reflexivity|]. split; [|by split]. by repeat split.
Qed.

Lemma handle_button2_headless w smp s :
  headless s →
  ∃ s', handle_button2 w smp s = Done (accepted2 s smp) s' ∧ headless s' ∧
    log s' = log s ∧ np s' = np s ∧
    (accepted2 s smp = true →
       current_color_index s' = ((current_color_index s + 1) mod 9)%nat).
Proof.
  intros (Hlen & Ho & Hs & Hlog). unfold accepted2.
  destruct (edge2 s smp && debounced2 s smp) eqn:Hacc.
  - apply andb_true_iff in Hacc as [He Hd].
    rewrite handle_button2_change by assumption.
    rewrite shown_headless by exact Ho.
    eexists. split; [reflexivity|]. by repeat split.
  - rewrite handle_button2_reject by assumption.
    eexists. split; [reflexivity|]. by repeat split.
Qed.

Lemma check_timeout_headless w smp s :
  oled_present s = false → check_timeout w smp s = Done tt s.
Proof.
  intros Ho. rewrite check_timeout_eq, Ho, andb_false_r. reflexivity.
Qed.

Lemma headless_check w : triple headless headless (check_buttons w) (λ _, True).
Proof.
  intros s (Hlen & Ho & Hs & Hlog). unfold check_buttons. munfold.
  unfold next_sample. cbn.
  set (smp := samples w (clock s)).
  set (s0 := set_clock (S (clock s)) (set_log (ECheck :: log s) s)).
  assert (H0 : headless s0) by (repeat split; try done; by constructor).
  destruct (handle_button1_headless w smp s0 H0) as (s1 & -> & H1 & _).
  destruct (handle_button2_headless w smp s1 H1) as (s2 & -> & H2 & _).
  rewrite check_timeout_headless by apply H2. by split.
Qed.

Lemma headless_np_set i c : triple headless headless (np_set i c) (λ _, True).
Proof.
  intros s (Hlen & Ho & Hs & Hlog). unfold np_set.
  destruct (decide _); [|by repeat split]. split; [done|].
  split; [unfold len_ok in *; cbn; by rewrite length_insert|]. by repeat split.
Qed.

Lemma headless_np_write : triple headless headless np_write (λ _, True).
Proof.
  intros s (Hlen & Ho & Hs & Hlog). split; [done|].
  repeat split; try done. by constructor.
Qed.

Lemma headless_sleep ms : triple headless headless (sleep_ms ms) (λ _, True).
Proof.
  intros s (Hlen & Ho & Hs & Hlog). split; [done|].
  repeat split; try done. by constructor.
Qed.

Lemma headless_update_display w :
  triple headless headless (update_display w) (λ _, True).
Proof.
  intros s Hs. rewrite update_display_eq, shown_headless by apply Hs. by split.
Qed.

Lemma headless_main w fuel : triple headless headless (main w fuel) (λ _, True).
Proof.
  apply (main_inv headless headless w (λ _, True)); try done.
  - apply headless_check.
  - intros i c _. apply headless_np_set.
  - apply headless_np_write.
  - apply headless_sleep.
  - apply headless_update_display.
Qed.

Lemma headless_init : headless (init_state false).
Proof. split; [apply length_replicate|]. repeat split. constructor. Qed.

(** C10.  Without the display the sleeping flag stays down for as long as
    the program runs and no driver call is ever made, so the timeout never
    fires; and in such a state every accepted press does its normal work:
    Button 1 selects the next effect and clears the strip, Button 2 selects
    the next colour, and the timeout check changes nothing. *)
Theorem headless_never_sleeps (w : world) (fuel : nat) :
  headless (final (main w fuel (init_state false))) ∧
  ∀ s smp, headless s →
    ∃ s1 s2,
      handle_button1 w smp s = Done (accepted1 s smp) s1 ∧
      (accepted1 s smp = true →
         current_effect s1 = ((current_effect s + 1) mod 10)%nat ∧ np s1 = dark) ∧
      handle_button2 w smp s1 = Done (accepted2 s smp) s2 ∧
      (accepted2 s smp = true →
         current_color_index s2 = ((current_color_index s + 1) mod 9)%nat) ∧
      check_timeout w smp s2 = Done tt s2 ∧
      headless s2.
Proof.
  split.
  - pose proof (headless_main w fuel (init_state false) headless_init) as H.
    destruct (main w fuel (init_state false)); cbn; [apply H|exact H|exact H].
  - intros s smp Hs.
    destruct (handle_button1_headless w smp s Hs) as (s1 & E1 & H1 & _ & A1).
    destruct (handle_button1_frame w smp s (proj1 Hs))
      as (s1' & E1' & _ & _ & _ & _ & _ & Hb2 & Ht2 & _ & Hc).
    rewrite E1 in E1'. injection E1' as <-.
    destruct (handle_button2_headless w smp s1 H1) as (s2 & E2 & H2 & _ & _ & A2).
    assert (Hacc : accepted2 s1 smp = accepted2 s smp).
    { unfold accepted2, edge2, debounced2. by rewrite Hb2, Ht2. }
    rewrite Hacc, Hc in *.
    exists s1, s2. repeat split; try done.
    + by apply A1.
    + by apply A1.
    + apply check_timeout_headless, H2.
    + apply H2.
    + apply H2.
    + apply H2.
    + apply H2.
Qed.

Lemma headless_never_sleeps_witness :
  ∃ s1 s2,
    handle_button1 quiet_world (press_sample 1000 true true) (init_state false) =
      Done true s1 ∧
    current_effect s1 = 1%nat ∧
    handle_button2 quiet_world (press_sample 1000 true true) s1 = Done true s2 ∧
    current_color_index s2 = 1%nat ∧
    display_sleeping s2 = false.
Proof.
  destruct (proj2 (headless_never_sleeps quiet_world 0)
              (init_state false) (press_sample 1000 true true) headless_init)
    as (s1 & s2 & E1 & A1 & E2 & A2 & _ & H2).
  exists s1, s2. split; [exact E1|]. split; [by apply A1|].
  split; [exact E2|]. split; [by apply A2|]. apply H2.
Defined.

(** *** Fire *)

Lemma fire_drift_state heat s : final (fire_drift heat s) = s.
Proof.
  unfold fire_drift. generalize (range_down (LED_COUNT - 1) 1). intros xs.
  revert heat. induction xs as [|i xs IH]; intros heat; [reflexivity|].
  cbn [for_acc]. munfold. unfold subscript.
  destruct (heat !! (i - 1)%nat); [|reflexivity].
  destruct (heat !! (i - 2)%nat); [|reflexivity]. munfold.
  unfold assign. destruct (decide _); [apply IH|reflexivity].
Qed.

Lemma np_set_len i c :
  (i < LED_COUNT)%nat → triple len_ok (λ _, False) (np_set i c) (λ _, True).
Proof.
  intros Hi s Hlen. unfold np_set. unfold len_ok in *.
  destruct (decide (i < length (np s))%nat); [|lia].
  split; [done|]. cbn. by rewrite length_insert.
Qed.

Lemma check_buttons_len w :
  triple len_ok (λ _, False) (check_buttons w) (λ _, True).
Proof.
  intros s Hs. destruct (check_buttons_frame w s Hs) as (s' & -> & Hl & _).
  by split.
Qed.

Lemma fire_render_len heat :
  heat_inv heat → triple len_ok (λ _, False) (fire_render heat) (λ _, True).
Proof.
  intros Hh. unfold fire_render. apply triple_seq; [|by intros ? s Hs].
  apply triple_for_. intros i Hi%elem_of_range.
  eapply triple_bind.
  { apply triple_subscript. intros Hn. by destruct (heat_inv_lookup heat i). }
  intros t _. destruct (heat_color t) as [[r g] b]. by apply np_set_len.
Qed.

(** One turn of the loop of [effect_fire] returns normally and hands a
    heat array in range to the next turn. *)
Lemma fire_frame_len w heat :
  heat_inv heat →
  triple len_ok (λ _, False) (fire_frame w heat)
    (λ r, match r with None => True | Some h => heat_inv h end).
Proof.
  intros Hh. unfold fire_frame. apply triple_seq; [apply check_buttons_len|].
  intros pressed. apply triple_if; [by apply triple_ret|].
  eapply triple_bind; [by apply fire_cool_triple|]. intros h1 H1.
  eapply triple_bind; [by apply fire_drift_triple|]. intros h2 H2.
  eapply triple_bind; [by apply fire_spark_triple|]. intros h3 H3.
  apply triple_seq; [by apply fire_render_len|]. intros _.
  apply triple_seq; [by intros s Hs|]. intros _. by apply triple_ret.
Qed.

(** C7.  The fire effect starts from a heat array of zeros, which is in
    range.  On a heat array of [LED_COUNT] entries in [0, 255], whatever
    the random draws, each of the three updates of a frame returns
    normally with every entry in [0, 255]: the cooling, then the upward
    drift, then the spark.  Hence after any number of turns of the loop,
    whatever the buttons and the draws, the heat array is in range. *)
Theorem fire_heat_in_range (w : world) :
  heat_inv (replicate LED_COUNT 0) ∧
  (∀ heat s, heat_inv heat →
     ∃ h1 s1 h2 h3 s3,
       fire_cool w heat s = Done h1 s1 ∧ heat_inv h1 ∧
       fire_drift h1 s1 = Done h2 s1 ∧ heat_inv h2 ∧
       fire_spark w h2 s1 = Done h3 s3 ∧ heat_inv h3) ∧
  (∀ n s, len_ok s →
     ∃ r s', turns n (fire_frame w) (replicate LED_COUNT 0) s = Done r s' ∧
       ∀ h, r = Some h → heat_inv h).
Proof.
  split; [apply heat_initial|]. split.
  - intros heat s Hinv.
    pose proof (fire_cool_triple (λ _, True) (λ _, False) w
                  (λ _ _ _, I) heat Hinv s I) as H1.
    destruct (fire_cool w heat s) as [h1 s1| |] eqn:E1; try contradiction.
    pose proof (fire_drift_triple (λ _, True) (λ _, False) h1 (proj1 H1) s1 I)
      as H2.
    pose proof (fire_drift_state h1 s1) as Hs.
    destruct (fire_drift h1 s1) as [h2 s2| |] eqn:E2; try contradiction.
    cbn in Hs. subst s2.
    pose proof (fire_spark_triple (λ _, True) (λ _, False) w
                  (λ _ _ _, I) h2 (proj1 H2) s1 I) as H3.
    destruct (fire_spark w h2 s1) as [h3 s3| |] eqn:E3; try contradiction.
    exists h1, s1, h2, h3, s3.
    destruct H1 as [H1 _], H2 as [H2 _], H3 as [H3 _]. auto 10.
  - intros n s Hs.
    pose proof (triple_turns len_ok (λ _, False) (fire_frame w) heat_inv
                  (fire_frame_len w) n _ heat_initial s Hs) as H.
    destruct (turns n (fire_frame w) (replicate LED_COUNT 0) s)
      as [r s'| |]; try contradiction.
    exists r, s'. split; [reflexivity|]. intros h ->. apply H.
Qed.

Lemma fire_heat_in_range_witness :
  (∃ h1 s1 h2 h3 s3,
     fire_cool quiet_world (replicate LED_COUNT 200) (init_state true) =
       Done h1 s1 ∧ heat_inv h1 ∧
     fire_drift h1 s1 = Done h2 s1 ∧ heat_inv h2 ∧
     fire_spark quiet_world h2 s1 = Done h3 s3 ∧ heat_inv h3) ∧
  ∃ r s', turns 3 (fire_frame quiet_world) (replicate LED_COUNT 0)
            (init_state true) = Done r s' ∧ ∀ h, r = Some h → heat_inv h.
Proof.
  destruct (fire_heat_in_range quiet_world) as (_ & H2 & H3). split.
  - apply H2. split; [|apply length_replicate].
    apply Forall_replicate. unfold chan_ok. lia.
  - apply H3. apply length_replicate.
Defined.

(** *** One entry into [check_buttons], step by step *)

Lemma check_buttons_unfold w s :
  check_buttons w s =
  let smp := samples w (clock s) in
  let s0 := set_clock (S (clock s)) (set_log (ECheck :: log s) s) in
  match handle_button1 w smp s0 with
  | Done p1 s1 =>
    match handle_button2 w smp s1 with
    | Done p2 s2 =>
      match check_timeout w smp s2 with
      | Done _ s3 => Done (p1 || p2) s3
      | IndexError s3 => IndexError s3
      | OutOfFuel s3 => OutOfFuel s3
      end
    | IndexError s2 => IndexError s2
    | OutOfFuel s2 => OutOfFuel s2
    end
  | IndexError s1 => IndexError s1
  | OutOfFuel s1 => OutOfFuel s1
  end.
Proof. reflexivity. Qed.

Lemma handle_button2_np w smp s : np (final (handle_button2 w smp s)) = np s.
Proof. destruct (handle_button2_frame w smp s) as (s' & -> & Hnp & _). exact Hnp. Qed.

Lemma status_ops_redraw s :
  oled_present s = true → display_sleeping s = false →
  (current_effect s < 10)%nat → (current_color_index s < 9)%nat →
  ∃ lines, status_ops s = Fill0 :: lines ++ [Show] ∧
    Forall (λ op, ∃ t x y, op = Text t x y) lines.
Proof.
  intros Ho Hs He Hc. unfold status_ops. rewrite Ho, Hs. cbn [negb orb].
  destruct (lookup_lt_is_Some_2 color_names (current_color_index s)) as [cn Hcn].
  { exact Hc. }
  rewrite Hcn.
  destruct (current_effect s) as [|[|[|[|[|[|[|[|[|[|e]]]]]]]]]]; [..|lia];
    cbn [lookup list_lookup effect_names Nat.eqb negb orb];
    first [ eexists [_; _; _]; split; [reflexivity|]; repeat constructor; eauto
          | eexists [_; _]; split; [reflexivity|]; repeat constructor; eauto ].
Qed.

Lemma handle_button2_oled w smp s :
  ∃ ops, log (final (handle_button2 w smp s)) = (EOled <$> ops) ++ log s.
Proof.
  destruct (edge2 s smp && debounced2 s smp) eqn:Hacc.
  - apply andb_true_iff in Hacc as [He Hd].
    destruct (display_sleeping s) eqn:Hs.
    + rewrite handle_button2_wake by assumption.
      rewrite display_wake_eq, Hs. destruct (negb (oled_present s)); drv.
      * by exists [].
      * rewrite <- !fmap_reverse, app_assoc, <- fmap_app. by eexists.
    + rewrite handle_button2_change by assumption. drv.
      rewrite <- fmap_reverse. by eexists.
  - rewrite handle_button2_reject by assumption. by exists [].
Qed.

Lemma check_timeout_oled w smp s :
  ∃ ops, log (final (check_timeout w smp s)) = (EOled <$> ops) ++ log s.
Proof.
  rewrite check_timeout_eq.
  destruct (_ && _); [cbn zeta; destruct (driver_ok _ _ _)|]; drv.
  - rewrite <- fmap_reverse. by eexists.
  - rewrite <- fmap_reverse. by eexists.
  - by exists [].
Qed.

(** *** Loops that enter [check_buttons] at the head of every turn

    Every looping effect has the same shape: each turn of its outermost
    loop enters [check_buttons] first and returns from the effect when the
    answer is true.  [I] holds on entry, [I'] after an entry that answered
    false and from then on, [Q] after an entry that answered true. *)

Section Guarded.
Context (w : world) (I I' Q R : state → Prop).
Hypothesis G_weaken : ∀ s, I' s → I s.
Hypothesis G_exit : ∀ s, I' s → R s.
Hypothesis G_check :
  hoare I (check_buttons w) (λ r s, if r : bool then Q s else I' s) R.
Hypothesis G_color : triple I R current_color (λ _, True).
Hypothesis G_rcount : ∀ s n, I' s → I' (set_rcount n s).
Hypothesis G_np_set : ∀ i c, triple I' R (np_set i c) (λ _, True).
Hypothesis G_np_write : triple I' R np_write (λ _, True).
Hypothesis G_sleep : ∀ ms, triple I' R (sleep_ms ms) (λ _, True).

Lemma g_clear : triple I' R clear (λ _, True).
Proof. by apply (clear_inv I' R (λ _, True)). Qed.

Lemma g_set_color i r g b q : triple I' R (set_color i r g b q) (λ _, True).
Proof. by apply (set_color_inv I' R (λ _, True)). Qed.

Lemma g_set_all r g b q : triple I' R (set_all r g b q) (λ _, True).
Proof. by apply (set_all_inv I' R (λ _, True)). Qed.

(** One turn: the entry, then a remainder that does not return from the
    effect. *)
Lemma guard (m : M bool) :
  triple I' R m (λ r, r = false) →
  hoare I (pressed ← check_buttons w; if pressed : bool then mret true else m)
    (λ r s, if r then Q s else I' s) R.
Proof.
  intros Hm. eapply hoare_bind; [apply G_check|].
  intros [|]; [by apply hoare_ret|].
  intros s Hs. specialize (Hm s Hs).
  destruct (m s) as [r s'| |]; [|exact Hm|exact Hm]. by destruct Hm as [-> ?].
Qed.

Lemma guard_while {St} (m : M (option St)) (P : St → Prop) :
  triple I' R m (λ r, match r with None => False | Some st => P st end) →
  hoare I (pressed ← check_buttons w; if pressed : bool then mret None else m)
    (λ r s, match r with None => Q s | Some st => P st ∧ I' s end) R.
Proof.
  intros Hm. eapply hoare_bind; [apply G_check|].
  intros [|]; [by apply hoare_ret|].
  intros s Hs. specialize (Hm s Hs).
  destruct (m s) as [[st|] s'| |]; [done|by destruct Hm|exact Hm|exact Hm].
Qed.

(** A [for] loop of such turns, entered before ([g_loop]) or after
    ([g_loop']) the first entry into [check_buttons]. *)
Lemma g_loop' {A} xs (body : A → M bool) :
  (∀ x, x ∈ xs → hoare I (body x) (λ r s, if r then Q s else I' s) R) →
  hoare I' (for_each xs body) (λ r s, if r then Q s else I' s) R.
Proof.
  intros Hb. apply hoare_for_each. intros x Hx.
  eapply hoare_pre; [apply G_weaken|by apply Hb].
Qed.

Lemma g_loop {A} x xs (body : A → M bool) :
  (∀ y, y ∈ x :: xs → hoare I (body y) (λ r s, if r then Q s else I' s) R) →
  hoare I (for_each (x :: xs) body) (λ r s, if r then Q s else I' s) R.
Proof.
  intros Hb. cbn [for_each]. eapply hoare_bind; [apply Hb; left|].
  intros [|]; [by apply hoare_ret|].
  apply g_loop'. intros y Hy. apply Hb. by right.
Qed.

Lemma g_while {St} (body : St → M (option St)) (P : St → Prop) :
  (∀ st, P st →
     hoare I (body st)
       (λ r s, match r with None => Q s | Some st' => P st' ∧ I' s end) R) →
  ∀ fuel st, P st → hoare I (while_true (S fuel) body st) (λ _, Q) R.
Proof.
  intros Hb fuel st Hst. cbn [while_true].
  eapply hoare_bind; [by apply Hb|].
  intros [st'|]; [|by apply hoare_ret].
  apply (hoare_while (λ st s, P st ∧ I' s)).
  - intros st1 s [Hp Hs]. by apply Hb; [|apply G_weaken].
  - intros st1 s [_ Hs]. by apply G_exit.
Qed.

Lemma g_finish (r : bool) :
  hoare (λ s, if r then Q s else I' s) (mret tt) (λ _ s, Q s ∨ I' s) R.
Proof. apply hoare_ret. intros s Hs. destruct r; auto. Qed.

Lemma g_rainbow_cycle :
  hoare I (effect_rainbow_cycle w) (λ _ s, Q s ∨ I' s) R.
Proof.
  unfold effect_rainbow_cycle. eapply hoare_bind; [|apply g_finish].
  apply g_loop. intros j _. apply guard.
  apply triple_seq; [|intros ?; apply triple_seq; [apply G_sleep|]].
  - apply triple_for_. intros i _. destruct (wheel _) as [[r g] b].
    apply g_set_color.
  - intros ?. by apply triple_ret.
Qed.

Lemma g_wipe_turn r g b i :
  hoare I
    (pressed ← check_buttons w;
     if pressed : bool then mret true
     else set_color i r g b default_brightness;; sleep_ms 50;; mret false)
    (λ r s, if r then Q s else I' s) R.
Proof.
  apply guard. apply triple_seq; [apply g_set_color|]. intros ?.
  apply triple_seq; [apply G_sleep|]. intros ?. by apply triple_ret.
Qed.

Lemma g_color_wipe : hoare I (effect_color_wipe w) (λ _ s, Q s ∨ I' s) R.
Proof.
  unfold effect_color_wipe. eapply hoare_bind_triple; [apply G_color|].
  intros [[r g] b] _. eapply hoare_bind.
  - apply g_loop. intros i _. apply g_wipe_turn.
  - intros [|]; [apply (g_finish true)|].
    eapply hoare_seq_quiet; [apply G_sleep|]. intros ?.
    eapply hoare_bind; [|apply g_finish].
    apply g_loop'. intros i _. apply g_wipe_turn.
Qed.

Lemma g_theater_chase :
  hoare I (effect_theater_chase w) (λ _ s, Q s ∨ I' s) R.
Proof.
  unfold effect_theater_chase. eapply hoare_bind_triple; [apply G_color|].
  intros [[r g] b] _. eapply hoare_bind; [|apply g_finish].
  apply g_loop. intros j _. apply guard.
  apply triple_seq; [|intros ?; by apply triple_ret].
  apply triple_for_. intros q _.
  apply triple_seq; [|intros ?].
  - apply triple_for_. intros i _.
    apply triple_if; [apply g_set_color|by apply triple_ret].
  - apply triple_seq; [apply G_sleep|]. intros ?.
    apply triple_seq; [apply g_clear|]. intros ?. apply G_sleep.
Qed.

Lemma g_pulse_step r g b k :
  hoare I (pulse_step w r g b k) (λ r s, if r then Q s else I' s) R.
Proof.
  unfold pulse_step. apply guard. cbn zeta.
  apply triple_seq; [apply g_set_all|]. intros ?.
  apply triple_seq; [apply G_sleep|]. intros ?. by apply triple_ret.
Qed.

Lemma g_pulse : hoare I (effect_pulse w) (λ _ s, Q s ∨ I' s) R.
Proof.
  unfold effect_pulse. eapply hoare_bind_triple; [apply G_color|].
  intros [[r g] b] _. eapply hoare_bind.
  - apply g_loop. intros k _. apply g_pulse_step.
  - intros [|]; [apply (g_finish true)|].
    eapply hoare_bind; [|apply g_finish].
    apply g_loop'. intros k _. apply g_pulse_step.
Qed.

Lemma g_running_step r g b i :
  hoare I (running_step w r g b i) (λ r s, if r then Q s else I' s) R.
Proof.
  unfold running_step. apply guard.
  apply triple_seq; [apply g_clear|]. intros ?.
  apply triple_seq; [apply g_set_color|]. intros ?.
  apply triple_seq; [apply G_sleep|]. intros ?. by apply triple_ret.
Qed.

Lemma g_running_light :
  hoare I (effect_running_light w) (λ _ s, Q s ∨ I' s) R.
Proof.
  unfold effect_running_light. eapply hoare_bind_triple; [apply G_color|].
  intros [[r g] b] _. eapply hoare_bind.
  - apply g_loop. intros k _. apply g_running_step.
  - intros [|]; [apply (g_finish true)|].
    eapply hoare_bind; [|apply g_finish].
    apply g_loop'. intros k _. apply g_running_step.
Qed.

Lemma g_aurora fuel :
  hoare I (effect_aurora w (S fuel)) (λ _ s, Q s ∨ I' s) R.
Proof.
  unfold effect_aurora.
  eapply hoare_conseq;
    [apply (g_while _ (λ _, True))|done|intros ? s Hs; left; exact Hs|done];
    [|done].
  intros offset _. unfold aurora_frame. apply (guard_while _ (λ _, True)).
  apply triple_seq.
  { apply triple_for_. intros i _.
    by apply (aurora_pixel_inv I' R (λ _, True)). }
  intros ?. apply triple_seq; [apply G_np_write|]. intros ?.
  apply triple_seq; [apply G_sleep|]. intros ?. by apply triple_ret.
Qed.

Lemma g_fire fuel : hoare I (effect_fire w (S fuel)) (λ _ s, Q s ∨ I' s) R.
Proof.
  unfold effect_fire.
  eapply hoare_conseq;
    [apply (g_while _ heat_inv)|done|intros ? s Hs; left; exact Hs|done];
    [|apply heat_initial].
  intros heat Hh. unfold fire_frame. apply (guard_while _ heat_inv).
  eapply triple_bind; [by apply fire_cool_triple|]. intros h1 H1.
  eapply triple_bind; [by apply fire_drift_triple|]. intros h2 H2.
  eapply triple_bind; [by apply fire_spark_triple|]. intros h3 H3.
  apply triple_seq; [by apply (fire_render_inv I' R (λ _, True))|]. intros ?.
  apply triple_seq; [apply G_sleep|]. intros ?. by apply triple_ret.
Qed.

Lemma g_breathing fuel :
  hoare I (effect_breathing w (S fuel)) (λ _ s, Q s ∨ I' s) R.
Proof.
  unfold effect_breathing. eapply hoare_bind_triple; [apply G_color|].
  intros [[r g] b] _.
  eapply hoare_conseq;
    [apply (g_while _ (λ _, True))|done|intros ? s Hs; left; exact Hs|done];
    [|done].
  intros step _. unfold breathing_frame. apply (guard_while _ (λ _, True)).
  cbn zeta. apply triple_seq; [apply g_set_all|]. intros ?.
  apply triple_seq; [apply G_sleep|]. intros ?. by apply triple_ret.
Qed.
End Guarded.

(** *** An effect change clears the strip *)

Lemma check_buttons_change w s :
  len_ok s →
  accepted1 s (samples w (clock s)) = true → display_sleeping s = false →
  ∃ s' ops, check_buttons w s = Done true s' ∧ np s' = dark ∧
    current_effect s' = ((current_effect s + 1) mod 10)%nat ∧
    log s' = (EOled <$> ops) ++ ENpWrite dark :: ECheck :: log s.
Proof.
  intros Hlen Hacc Hs. set (smp := samples w (clock s)) in *.
  apply andb_true_iff in Hacc as [He Hd].
  rewrite check_buttons_unfold. cbn zeta. fold smp.
  rewrite handle_button1_change by assumption. cbv beta iota zeta.
  unfold shown.
  match goal with |- context [driver_run w ?ops ?x] =>
    destruct (driver_run_spec w ops x) as (o1 & n1 & -> & _ & _) end.
  match goal with |- context [handle_button2 w smp ?s1] =>
    destruct (handle_button2_frame w smp s1)
      as (s2 & E2 & N2 & _ & _ & _ & _ & _ & _ & _ & C2);
    destruct (handle_button2_oled w smp s1) as (o2 & L2) end.
  rewrite E2 in *.
  destruct (check_timeout_frame w smp s2)
    as (s3 & E3 & N3 & _ & _ & _ & _ & _ & _ & _ & C3 & _).
  destruct (check_timeout_oled w smp s2) as (o3 & L3).
  rewrite E3 in *. fields.
  exists s3, (o3 ++ o2 ++ reverse o1). split; [reflexivity|].
  split; [by rewrite N3, N2|]. split; [by rewrite C3, C2|].
  rewrite L3, L2. by rewrite !fmap_app, fmap_reverse, <- !app_assoc.
Qed.

(** Nothing but an accepted press of Button 1 with the display awake moves
    the effect selector. *)
Lemma check_buttons_keeps_effect w s :
  len_ok s →
  accepted1 s (samples w (clock s)) && negb (display_sleeping s) = false →
  current_effect (final (check_buttons w s)) = current_effect s.
Proof.
  intros Hlen Hno. set (smp := samples w (clock s)) in *.
  rewrite check_buttons_unfold. cbn zeta. fold smp.
  assert (H1 : ∃ s1, handle_button1 w smp
                       (set_clock (S (clock s)) (set_log (ECheck :: log s) s))
                     = Done (accepted1 s smp) s1 ∧
                     current_effect s1 = current_effect s).
  { destruct (accepted1 s smp) eqn:Hacc.
    - apply andb_true_iff in Hacc as [He Hd].
      destruct (display_sleeping s) eqn:Hs; [|discriminate].
      rewrite handle_button1_wake by assumption. eexists. split; [reflexivity|].
      rewrite display_wake_eq. fields. rewrite Hs.
      by destruct (negb (oled_present s)); drv.
    - rewrite handle_button1_reject by exact Hacc. eexists. by split. }
  destruct H1 as (s1 & -> & C1).
  destruct (handle_button2_frame w smp s1)
    as (s2 & -> & _ & _ & _ & _ & _ & _ & _ & _ & C2).
  destruct (check_timeout_frame w smp s2)
    as (s3 & -> & _ & _ & _ & _ & _ & _ & _ & _ & C3 & _).
  cbn [final]. by rewrite C3, C2, C1.
Qed.

Lemma interrupt_check w e :
  hoare (λ s, len_ok s ∧ current_effect s = e) (check_buttons w)
    (λ r s, if r : bool
            then len_ok s ∧ (current_effect s = e ∨ just_changed s)
            else len_ok s ∧ current_effect s = e)
    (λ s, len_ok s ∧ current_effect s = e).
Proof.
  intros s [Hlen He].
  destruct (check_buttons_frame w s Hlen) as (s' & E & Hlen' & _).
  destruct (accepted1 s (samples w (clock s)) && negb (display_sleeping s))
    eqn:Hch.
  - apply andb_true_iff in Hch as [Hacc Hs]. apply negb_true_iff in Hs.
    destruct (check_buttons_change w s Hlen Hacc Hs)
      as (s'' & ops & E' & Hnp & _ & Hlog).
    rewrite E' in E. injection E as _ <-. rewrite E'.
    split; [exact Hlen'|]. right. split; [exact Hnp|]. eauto.
  - pose proof (check_buttons_keeps_effect w s Hlen Hch) as Hk.
    rewrite E in *. cbn [final] in Hk. rewrite He in Hk.
    destruct (_ || _); auto.
Qed.

Lemma kept_np_set e i c :
  triple (λ s, len_ok s ∧ current_effect s = e)
    (λ s, len_ok s ∧ current_effect s = e) (np_set i c) (λ _, True).
Proof.
  intros s [Hlen He]. unfold np_set. destruct (decide _); [|done].
  split; [done|]. split; [|exact He].
  unfold len_ok in *. cbn. by rewrite length_insert.
Qed.

(** Whatever interrupts an effect: when the effect selector has moved by
    the time the effect stops, the effect has returned, and it did so on
    the spot, from the entry into [check_buttons] that cleared the strip. *)
Lemma interrupt_run_effect w fuel e :
  hoare (λ s, len_ok s ∧ current_effect s = e) (run_effect w fuel e)
    (λ _ s, len_ok s ∧ (current_effect s = e ∨ just_changed s))
    (λ s, len_ok s ∧ current_effect s = e).
Proof.
  set (I := λ s, len_ok s ∧ current_effect s = e).
  set (Q := λ s, len_ok s ∧ (current_effect s = e ∨ just_changed s)).
  assert (Hcolor : triple I I current_color (λ _, True)).
  { eapply triple_weaken; [by apply (current_color_inv I I)|done]. }
  assert (Hopen : ∀ m : M unit,
            hoare I m (λ _ s, Q s ∨ I s) I → hoare I m (λ _, Q) I).
  { intros m Hm. eapply hoare_conseq; [exact Hm|done| |done].
    intros _ s [Hs|[Hlen He]]; [exact Hs|]. split; [exact Hlen|by left]. }
  assert (Hquiet : ∀ m : M unit, triple I I m (λ _, True) → hoare I m (λ _, Q) I).
  { intros m Hm s Hs. specialize (Hm s Hs).
    destruct (m s); [|exact Hm|exact Hm].
    destruct Hm as [_ [Hlen He]]. split; [exact Hlen|by left]. }
  assert (Hnp_write : triple I I np_write (λ _, True)) by (by intros s Hs).
  assert (Hsleep : ∀ ms, triple I I (sleep_ms ms) (λ _, True))
    by (by intros ms s Hs).
  destruct e as [|[|[|[|[|[|[|[|[|[|e]]]]]]]]]]; cbn [run_effect].
  - apply Hquiet. apply (effect_all_on_inv I I (λ _, True)); try done.
    intros i c _. apply kept_np_set.
  - apply Hopen, (g_rainbow_cycle w I I Q I); try done;
      [apply interrupt_check|apply kept_np_set].
  - apply Hopen, (g_color_wipe w I I Q I); try done;
      [apply interrupt_check|apply kept_np_set].
  - apply Hopen, (g_theater_chase w I I Q I); try done;
      [apply interrupt_check|apply kept_np_set].
  - apply Hopen, (g_pulse w I I Q I); try done;
      [apply interrupt_check|apply kept_np_set].
  - apply Hopen, (g_running_light w I I Q I); try done;
      [apply interrupt_check|apply kept_np_set].
  - destruct fuel as [|fuel]; [by intros s Hs|].
    apply Hopen, (g_aurora w I I Q I); try done;
      [apply interrupt_check|apply kept_np_set].
  - destruct fuel as [|fuel]; [by intros s Hs|].
    apply Hopen, (g_fire w I I Q I); try done;
      [apply interrupt_check|apply kept_np_set].
  - destruct fuel as [|fuel].
    { eapply hoare_bind_triple; [exact Hcolor|]. intros [[r g] b] _.
      by intros s Hs. }
    apply Hopen, (g_breathing w I I Q I); try done;
      [apply interrupt_check|apply kept_np_set].
  - apply Hquiet. apply (effect_off_inv I I (λ _, True)); try done.
    intros i c _. apply kept_np_set.
  - apply hoare_ret. intros s [Hlen He]. split; [exact Hlen|by left].
Qed.

(** C9.  An accepted press of Button 1 with the display awake leaves every
    strip entry at (0, 0, 0): the cleared strip is the last frame written
    when [check_buttons] returns, the next effect is selected, and later
    entries into [check_buttons] keep a cleared strip cleared.  The press
    is seen either by the entry of the main loop or by an entry made inside
    the running effect.  In the first case the turn of the main loop runs
    the selected effect from the very state its [check_buttons] returned.
    In the second case the running effect returns on the spot: whenever an
    effect stops with the effect selector moved, it has returned normally,
    the strip is cleared and nothing was logged after the cleared frame but
    driver calls of the display; the sleep that ends the turn of the main
    loop leaves the strip alone.  Either way the new effect starts on the
    cleared strip.  An accepted press of Button 2 alone selects the next
    colour and makes driver calls of the display only: the handling of
    Button 2 never changes a strip entry. *)
Theorem effect_change_clears_strip (w : world) (s : state) :
  len_ok s →
  let smp := samples w (clock s) in
  (accepted1 s smp = true → display_sleeping s = false →
     ∃ s' ops, check_buttons w s = Done true s' ∧ np s' = dark ∧
       current_effect s' = ((current_effect s + 1) mod 10)%nat ∧
       log s' = (EOled <$> ops) ++ ENpWrite dark :: ECheck :: log s) ∧
  (accepted1 s smp = false → accepted2 s smp = true →
   display_sleeping s = false →
     ∃ s' ops, check_buttons w s = Done true s' ∧ np s' = np s ∧
       current_color_index s' = ((current_color_index s + 1) mod 9)%nat ∧
       current_effect s' = current_effect s ∧
       log s' = (EOled <$> ops) ++ ECheck :: log s) ∧
  (np s = dark → np (final (check_buttons w s)) = dark) ∧
  (∀ smp0, np (final (handle_button2 w smp0 s)) = np s) ∧
  (∀ fuel n,
     main_loop w fuel (S n) s =
     (run_effect w fuel (current_effect (final (check_buttons w s)));;
      sleep_ms 10;; main_loop w fuel n) (final (check_buttons w s))) ∧
  (∀ fuel e, current_effect s = e →
     current_effect (final (run_effect w fuel e s)) ≠ e →
     ∃ s', run_effect w fuel e s = Done tt s' ∧ just_changed s') ∧
  (∀ ms, np (final (sleep_ms ms s)) = np s).
Proof.
  intros Hlen smp. split; [|split; [|split; [|split; [|split; [|split]]]]].
  - intros Hacc Hs. by apply check_buttons_change.
  - intros H1 Hacc Hs. apply andb_true_iff in Hacc as [He Hd].
    rewrite check_buttons_unfold. cbn zeta. fold smp.
    rewrite handle_button1_reject by exact H1. cbv beta iota zeta.
    rewrite handle_button2_change by assumption. cbv beta iota zeta.
    unfold shown.
    match goal with |- context [driver_run w ?ops ?x] =>
      destruct (driver_run_spec w ops x) as (o2 & n2 & -> & _ & _) end.
    match goal with |- context [check_timeout w smp ?s2] =>
      destruct (check_timeout_frame w smp s2)
        as (s3 & E3 & N3 & _ & _ & _ & _ & _ & _ & _ & C3 & K3);
      destruct (check_timeout_oled w smp s2) as (o3 & L3) end.
    rewrite E3 in *. fields.
    exists s3, (o3 ++ reverse o2). split; [reflexivity|]. split; [exact N3|].
    split; [exact K3|]. split; [exact C3|].
    rewrite L3. by rewrite !fmap_app, fmap_reverse, <- !app_assoc.
  - intros Hd. destruct (check_buttons_log w s Hlen) as (_ & _ & _ & [N|N]);
      congruence.
  - intros smp0. apply handle_button2_np.
  - intros fuel n. destruct (check_buttons_frame w s Hlen) as (s' & E & _).
    cbn [main_loop]. munfold. by rewrite E.
  - intros fuel e He Hne.
    pose proof (interrupt_run_effect w fuel e s (conj Hlen He)) as H.
    destruct (run_effect w fuel e s) as [[] s'|s'|s']; cbn [final] in Hne.
    + exists s'. split; [reflexivity|]. by destruct H as [_ [?|?]].
    + by destruct H.
    + by destruct H.
  - reflexivity.
Qed.

Lemma effect_change_clears_strip_witness :
  (∃ s' ops,
     check_buttons (world_of (press_sample 1000 true false)) (lit_state 4) =
       Done true s' ∧ np s' = dark ∧ current_effect s' = 5%nat ∧
     log s' = (EOled <$> ops) ++ [ENpWrite dark; ECheck]) ∧
  (∃ s' ops,
     check_buttons (world_of (press_sample 1000 false true)) (lit_state 4) =
       Done true s' ∧ np s' = replicate LED_COUNT (76, 0, 0) ∧
     current_color_index s' = 1%nat ∧ current_effect s' = 4%nat ∧
     log s' = (EOled <$> ops) ++ [ECheck]) ∧
  (∃ s',
     run_effect (world_of (press_sample 1000 true false)) 3 4 (lit_state 4) =
       Done tt s' ∧ just_changed s').
Proof.
  split; [|split].
  - destruct (effect_change_clears_strip
                (world_of (press_sample 1000 true false)) (lit_state 4))
      as (H & _); [apply length_replicate|].
    destruct H as (s' & ops & E & N & C & L); [reflexivity|reflexivity|].
    exists s', ops. auto.
  - destruct (effect_change_clears_strip
                (world_of (press_sample 1000 false true)) (lit_state 4))
      as (_ & H & _); [apply length_replicate|].
    destruct H as (s' & ops & E & N & K & C & L);
      [reflexivity|reflexivity|reflexivity|].
    exists s', ops. auto.
  - destruct (effect_change_clears_strip
                (world_of (press_sample 1000 true false)) (lit_state 4))
      as (_ & _ & _ & _ & _ & H & _); [apply length_replicate|].
    apply (H 3%nat 4%nat); [reflexivity|]. vm_compute. discriminate.
Defined.

(** *** Both buttons in one entry *)

(** C4, as the code has it.  One entry into [check_buttons] answers one
    boolean, true when a press of either button was accepted.  The two
    buttons are handled one after the other, Button 1 first, and neither
    shadows the other: when both present an accepted falling edge in the
    same entry with the display awake, the next effect is selected, the
    strip is cleared, the next colour is selected too, and both debounce
    timers restart. *)
Theorem both_buttons_both_actions (w : world) (s : state) :
  len_ok s →
  let smp := samples w (clock s) in
  (∃ s', check_buttons w s = Done (accepted1 s smp || accepted2 s smp) s') ∧
  (accepted1 s smp = true → accepted2 s smp = true →
   display_sleeping s = false →
     ∃ s', check_buttons w s = Done true s' ∧
       current_effect s' = ((current_effect s + 1) mod 10)%nat ∧
       current_color_index s' = ((current_color_index s + 1) mod 9)%nat ∧
       np s' = dark ∧
       last_button1_time s' = ticks smp ∧ last_button2_time s' = ticks smp).
Proof.
  intros Hlen smp. split.
  - destruct (check_buttons_frame w s Hlen) as (s' & E & _). by exists s'.
  - intros H1 H2 Hs.
    apply andb_true_iff in H1 as [He1 Hd1]. apply andb_true_iff in H2 as [He2 Hd2].
    rewrite check_buttons_unfold. cbn zeta. fold smp.
    rewrite handle_button1_change by assumption. cbv beta iota zeta. drv.
    rewrite handle_button2_change by assumption. cbv beta iota zeta. drv.
    match goal with |- context [check_timeout w smp ?s2] =>
      destruct (check_timeout_frame w smp s2)
        as (s3 & E3 & N3 & _ & _ & _ & _ & _ & T1 & T2 & C3 & K3) end.
    rewrite E3. exists s3. split; [reflexivity|]. repeat split; assumption.
Qed.

Lemma both_buttons_both_actions_witness :
  ∃ s', check_buttons (world_of (press_sample 1000 true true)) (init_state true)
          = Done true s' ∧
    current_effect s' = 1%nat ∧ current_color_index s' = 1%nat.
Proof.
  destruct (both_buttons_both_actions
              (world_of (press_sample 1000 true true)) (init_state true))
    as (_ & H); [apply length_replicate|].
  destruct H as (s' & E & C & K & _); [reflexivity|reflexivity|reflexivity|].
  exists s'. auto.
Defined.

(** C4 as claimed fails: with both presses accepted in one entry, the
    colour selector moves as well. *)
Lemma button2_fires_with_button1 :
  let w := world_of (press_sample 1000 true true) in
  let s := init_state true in
  accepted1 s (samples w (clock s)) = true ∧
  accepted2 s (samples w (clock s)) = true ∧
  current_effect (final (check_buttons w s)) ≠ current_effect s ∧
  current_color_index (final (check_buttons w s)) ≠ current_color_index s.
Proof. vm_compute. repeat split; discriminate. Qed.

(** *** Display sleep and wake *)

(** C2, as the code has it.  With the display present:
    - awake and no press accepted, a tick difference above 30000 since
      [last_activity_time] starts the sleep transition: clear, flush,
      power off, then the flag; when none of the three driver calls raises
      this is exactly one sleep transition;
    - when one of the three raises, the [try] block is left before the flag
      is raised: the power-off is not logged, the display counts as awake
      and the activity timer is untouched, so the transition is tried again
      at the next entry;
    - a smaller tick difference starts nothing;
    - asleep and no press accepted, nothing happens: no second sleep;
    - asleep and the press of one button accepted, exactly one wake
      transition happens (power on, redraw, activity timer set to the tick
      count of the entry) and neither selector nor the strip changes; the
      flag comes down and the timer is set whether or not a driver call
      raises, and when none does the driver calls are the power-on and the
      redraw;
    - asleep and the presses of both buttons accepted in the same entry,
      Button 1 wakes the display and Button 2 then selects the next
      colour.
    The redraw is a clear, the text lines and a flush. *)
Theorem display_sleep_and_wake (w : world) (s : state) :
  len_ok s → oled_present s = true →
  let smp := samples w (clock s) in
  (display_sleeping s = false →
   accepted1 s smp = false → accepted2 s smp = false →
   ticks_diff (ticks smp) (last_activity_time s) > DISPLAY_TIMEOUT →
   driver_ok w (ocount s) 3 = true →
     ∃ s', check_buttons w s = Done false s' ∧ display_sleeping s' = true ∧
       log s' = EOled PowerOff :: EOled Show :: EOled Fill0 :: ECheck :: log s) ∧
  (display_sleeping s = false →
   accepted1 s smp = false → accepted2 s smp = false →
   ticks_diff (ticks smp) (last_activity_time s) > DISPLAY_TIMEOUT →
   driver_ok w (ocount s) 3 = false →
     ∃ s' made, check_buttons w s = Done false s' ∧
       display_sleeping s' = false ∧
       last_activity_time s' = last_activity_time s ∧
       made `prefix_of` [Fill0; Show] ∧
       log s' = reverse (EOled <$> made) ++ ECheck :: log s) ∧
  (display_sleeping s = false →
   accepted1 s smp = false → accepted2 s smp = false →
   ticks_diff (ticks smp) (last_activity_time s) <= DISPLAY_TIMEOUT →
     ∃ s', check_buttons w s = Done false s' ∧ display_sleeping s' = false ∧
       log s' = ECheck :: log s) ∧
  (display_sleeping s = true →
   accepted1 s smp = false → accepted2 s smp = false →
     ∃ s', check_buttons w s = Done false s' ∧ display_sleeping s' = true ∧
       log s' = ECheck :: log s) ∧
  (display_sleeping s = true →
   xorb (accepted1 s smp) (accepted2 s smp) = true →
     ∃ s', check_buttons w s = Done true s' ∧ display_sleeping s' = false ∧
       last_activity_time s' = ticks smp ∧
       current_effect s' = current_effect s ∧
       current_color_index s' = current_color_index s ∧
       np s' = np s ∧
       (reliable w →
          log s' = reverse (EOled <$> status_ops (set_display_sleeping false s))
                   ++ EOled PowerOn :: ECheck :: log s)) ∧
  (display_sleeping s = true →
   accepted1 s smp = true → accepted2 s smp = true →
     ∃ s', check_buttons w s = Done true s' ∧ display_sleeping s' = false ∧
       current_effect s' = current_effect s ∧
       current_color_index s' = ((current_color_index s + 1) mod 9)%nat) ∧
  ((current_effect s < 10)%nat → (current_color_index s < 9)%nat →
     ∃ lines, status_ops (set_display_sleeping false s) = Fill0 :: lines ++ [Show] ∧
       Forall (λ op, ∃ t x y, op = Text t x y) lines).
Proof.
  intros Hlen Ho smp.
  split; [|split; [|split; [|split; [|split; [|split]]]]].
  - intros Hs H1 H2 Ht Hok. rewrite check_buttons_unfold. cbn zeta. fold smp.
    rewrite handle_button1_reject by exact H1. cbv beta iota zeta.
    rewrite handle_button2_reject by exact H2. cbv beta iota zeta.
    rewrite check_timeout_eq. fields. rewrite Hs, Ho. cbn [negb andb].
    destruct (Z.gtb_spec (ticks_diff (ticks smp) (last_activity_time s))
                DISPLAY_TIMEOUT); [|lia].
    cbv zeta. fields. rewrite Hok, driver_run_ok by exact Hok.
    eexists. by repeat split.
  - intros Hs H1 H2 Ht Hbad. rewrite check_buttons_unfold. cbn zeta. fold smp.
    rewrite handle_button1_reject by exact H1. cbv beta iota zeta.
    rewrite handle_button2_reject by exact H2. cbv beta iota zeta.
    rewrite check_timeout_eq. fields. rewrite Hs, Ho. cbn [negb andb].
    destruct (Z.gtb_spec (ticks_diff (ticks smp) (last_activity_time s))
                DISPLAY_TIMEOUT); [|lia].
    cbv zeta. fields. rewrite Hbad. cbn [driver_run driver_ok] in *. fields.
    destruct (oled_raises w (ocount s)).
    { eexists _, []. repeat split; [exact Hs|apply prefix_nil]. }
    destruct (oled_raises w (S (ocount s))).
    { eexists _, [Fill0]. repeat split; [exact Hs|by exists [Show]]. }
    destruct (oled_raises w (S (S (ocount s)))); [|discriminate Hbad].
    eexists _, [Fill0; Show]. by repeat split.
  - intros Hs H1 H2 Ht. rewrite check_buttons_unfold. cbn zeta. fold smp.
    rewrite handle_button1_reject by exact H1. cbv beta iota zeta.
    rewrite handle_button2_reject by exact H2. cbv beta iota zeta.
    rewrite check_timeout_eq. fields. rewrite Hs, Ho. cbn [negb andb].
    destruct (Z.gtb_spec (ticks_diff (ticks smp) (last_activity_time s))
                DISPLAY_TIMEOUT); [lia|].
    eexists. by repeat split.
  - intros Hs H1 H2. rewrite check_buttons_unfold. cbn zeta. fold smp.
    rewrite handle_button1_reject by exact H1. cbv beta iota zeta.
    rewrite handle_button2_reject by exact H2. cbv beta iota zeta.
    rewrite check_timeout_eq. fields. rewrite Hs. cbn [negb andb].
    eexists. by repeat split.
  - intros Hs Hx. rewrite check_buttons_unfold. cbn zeta. fold smp.
    destruct (accepted1 s smp) eqn:H1, (accepted2 s smp) eqn:H2;
      try discriminate.
    + apply andb_true_iff in H1 as [He Hd].
      rewrite handle_button1_wake by assumption.
      rewrite display_wake_eq. fields. rewrite Ho, Hs. cbv beta iota zeta.
      cbn [negb final]. unfold shown.
      match goal with |- context [driver_run w [PowerOn] ?x] =>
        destruct (driver_run_spec w [PowerOn] x) as (m1 & n1 & -> & _ & R1) end.
      match goal with |- context [driver_run w ?ops ?x] =>
        destruct (driver_run_spec w ops x) as (m2 & n2 & -> & _ & R2) end.
      rewrite handle_button2_reject by exact H2.
      cbv beta iota zeta. rewrite check_timeout_eq. fields.
      rewrite Ho, ticks_diff_refl. cbn [negb andb Z.gtb Z.compare].
      eexists. repeat split. intros Hw. by rewrite (R1 Hw), (R2 Hw).
    + rewrite handle_button1_reject by exact H1. cbv beta iota zeta.
      apply andb_true_iff in H2 as [He Hd].
      rewrite handle_button2_wake by assumption.
      rewrite display_wake_eq. fields. rewrite Ho, Hs. cbv beta iota zeta.
      cbn [negb final]. unfold shown.
      match goal with |- context [driver_run w [PowerOn] ?x] =>
        destruct (driver_run_spec w [PowerOn] x) as (m1 & n1 & -> & _ & R1) end.
      match goal with |- context [driver_run w ?ops ?x] =>
        destruct (driver_run_spec w ops x) as (m2 & n2 & -> & _ & R2) end.
      rewrite check_timeout_eq. fields.
      rewrite Ho, ticks_diff_refl. cbn [negb andb Z.gtb Z.compare].
      eexists. repeat split. intros Hw. by rewrite (R1 Hw), (R2 Hw).
  - intros Hs H1 H2. rewrite check_buttons_unfold. cbn zeta. fold smp.
    apply andb_true_iff in H1 as [He1 Hd1]. apply andb_true_iff in H2 as [He2 Hd2].
    rewrite handle_button1_wake by assumption.
    rewrite display_wake_eq. fields. rewrite Ho, Hs. cbv beta iota zeta.
    cbn [negb final]. drv. rewrite handle_button2_change by done.
    cbv beta iota zeta. drv. rewrite check_timeout_eq. fields.
    rewrite Ho, ticks_diff_refl. cbn [negb andb Z.gtb Z.compare].
    eexists. by repeat split.
  - intros He Hc. by apply (status_ops_redraw (set_display_sleeping false s)).
Qed.

Lemma display_sleep_and_wake_witness :
  (∃ s', check_buttons (world_of (idle_sample 31001)) (init_state true)
           = Done false s' ∧ display_sleeping s' = true ∧
     log s' = [EOled PowerOff; EOled Show; EOled Fill0; ECheck]) ∧
  (∃ s' made,
     check_buttons (raising_world (idle_sample 31001) 2) (init_state true)
       = Done false s' ∧ display_sleeping s' = false ∧
     last_activity_time s' = 0 ∧ made `prefix_of` [Fill0; Show] ∧
     log s' = reverse (EOled <$> made) ++ [ECheck]) ∧
  (∃ s', check_buttons (world_of (press_sample 1000 false true)) asleep_state
           = Done true s' ∧ display_sleeping s' = false ∧
     current_color_index s' = 0%nat ∧
     log s' = reverse (EOled <$> status_ops (init_state true))
              ++ [EOled PowerOn; ECheck]).
Proof.
  split; [|split].
  - destruct (display_sleep_and_wake (world_of (idle_sample 31001))
                (init_state true)) as (H & _);
      [apply length_replicate|reflexivity|].
    apply H; reflexivity.
  - destruct (display_sleep_and_wake (raising_world (idle_sample 31001) 2)
                (init_state true)) as (_ & H & _);
      [apply length_replicate|reflexivity|].
    apply H; reflexivity.
  - destruct (display_sleep_and_wake (world_of (press_sample 1000 false true))
                asleep_state) as (_ & _ & _ & _ & H & _);
      [apply length_replicate|reflexivity|].
    destruct H as (s' & E & D & _ & _ & K & _ & L); [reflexivity|reflexivity|].
    exists s'. split; [exact E|]. split; [exact D|]. split; [exact K|].
    apply L. intros n. reflexivity.
Defined.

(** C2 as claimed fails: asleep, with both presses accepted in one entry,
    the press of Button 2 is not swallowed, it selects the next colour. *)
Lemma press_while_asleep_changes_color :
  let w := world_of (press_sample 1000 true true) in
  display_sleeping asleep_state = true ∧
  accepted2 asleep_state (samples w (clock asleep_state)) = true ∧
  current_color_index (final (check_buttons w asleep_state))
    ≠ current_color_index asleep_state.
Proof. vm_compute. repeat split; discriminate. Qed.

(** *** Debounce *)

Lemma check_buttons_final w s :
  len_ok s →
  let smp := samples w (clock s) in
  let s1 := final (check_buttons w s) in
  len_ok s1 ∧ clock s1 = S (clock s) ∧
  last_button1_time s1 =
    (if accepted1 s smp then ticks smp else last_button1_time s) ∧
  last_button2_time s1 =
    (if accepted2 s smp then ticks smp else last_button2_time s).
Proof.
  intros Hlen.
  destruct (check_buttons_frame w s Hlen)
    as (s1 & E & Hl & Hc & _ & _ & _ & _ & T1 & T2).
  cbn zeta. rewrite E. by repeat split.
Qed.

Lemma polls_S w n s :
  len_ok s → polls w (S n) s = polls w n (final (check_buttons w s)).
Proof.
  intros Hlen. destruct (check_buttons_frame w s Hlen) as (s1 & E & _).
  cbn [polls]. munfold. by rewrite E.
Qed.

Lemma polls_frame w n : ∀ s,
  len_ok s →
  ∃ s', polls w n s = Done tt s' ∧ len_ok s' ∧ clock s' = (clock s + n)%nat.
Proof.
  induction n as [|n IH]; intros s Hlen.
  - exists s. by rewrite Nat.add_0_r.
  - rewrite polls_S by exact Hlen.
    destruct (check_buttons_final w s Hlen) as (Hl & Hc & _).
    destruct (IH _ Hl) as (s' & E & Hl' & Hc').
    exists s'. split; [exact E|]. split; [exact Hl'|]. lia.
Qed.

Lemma polls_add w n m : ∀ s,
  len_ok s → polls w (n + m) s = polls w m (final (polls w n s)).
Proof.
  induction n as [|n IH]; intros s Hlen; [reflexivity|].
  cbn [Nat.add]. rewrite !polls_S by exact Hlen.
  apply IH, (check_buttons_final w s Hlen).
Qed.

(** While every sample polled lies within the debounce delay before the
    tick count [t], so does the time of the last accepted press. *)
Lemma polls_last_time w t n : ∀ s,
  len_ok s →
  (∀ k, (k < n)%nat →
     ticks_diff t (ticks (samples w (clock s + k))) <= debounce_delay) →
  (ticks_diff t (last_button1_time s) <= debounce_delay →
   ticks_diff t (last_button1_time (final (polls w n s))) <= debounce_delay) ∧
  (ticks_diff t (last_button2_time s) <= debounce_delay →
   ticks_diff t (last_button2_time (final (polls w n s))) <= debounce_delay).
Proof.
  induction n as [|n IH]; intros s Hlen Hw; [by split|].
  rewrite polls_S by exact Hlen.
  destruct (check_buttons_final w s Hlen) as (Hl & Hc & T1 & T2).
  pose proof (Hw 0%nat ltac:(lia)) as H0. rewrite Nat.add_0_r in H0.
  destruct (IH (final (check_buttons w s)) Hl) as [I1 I2].
  { intros k Hk. rewrite Hc. specialize (Hw (S k) ltac:(lia)).
    by rewrite Nat.add_succ_r in Hw. }
  split; intros H.
  - apply I1. rewrite T1. by destruct (accepted1 _ _).
  - apply I2. rewrite T2. by destruct (accepted2 _ _).
Qed.

Lemma accepted1_iff s smp :
  accepted1 s smp = true ↔
  button1_last_state s = true ∧ pin1 smp = false ∧
  ticks_diff (ticks smp) (last_button1_time s) > debounce_delay.
Proof.
  unfold accepted1, edge1, debounced1.
  rewrite !andb_true_iff, negb_true_iff.
  destruct (Z.gtb_spec (ticks_diff (ticks smp) (last_button1_time s))
              debounce_delay) as [Hgt|Hle]; split.
  - intros [[? ?] _]. repeat split; try done. lia.
  - intros (? & ? & _). by repeat split.
  - intros [_ ?]. discriminate.
  - intros (_ & _ & ?). lia.
Qed.

Lemma accepted2_iff s smp :
  accepted2 s smp = true ↔
  button2_last_state s = true ∧ pin2 smp = false ∧
  ticks_diff (ticks smp) (last_button2_time s) > debounce_delay.
Proof.
  unfold accepted2, edge2, debounced2.
  rewrite !andb_true_iff, negb_true_iff.
  destruct (Z.gtb_spec (ticks_diff (ticks smp) (last_button2_time s))
              debounce_delay) as [Hgt|Hle]; split.
  - intros [[? ?] _]. repeat split; try done. lia.
  - intros (? & ? & _). by repeat split.
  - intros [_ ?]. discriminate.
  - intros (_ & _ & ?). lia.
Qed.

Lemma window_rejects w s i m :
  len_ok s →
  let sample_at k := samples w (clock s + k) in
  let j := (i + S m)%nat in
  (∀ k, (i ≤ k < j)%nat →
     ticks_diff (ticks (sample_at j)) (ticks (sample_at k)) <= debounce_delay) →
  (accepted1 (final (polls w i s)) (sample_at i) = true →
   accepted1 (final (polls w j s)) (sample_at j) = false) ∧
  (accepted2 (final (polls w i s)) (sample_at i) = true →
   accepted2 (final (polls w j s)) (sample_at j) = false).
Proof.
  intros Hlen sample_at j Hw. unfold j at 1 3.
  rewrite polls_add by exact Hlen.
  destruct (polls_frame w i s Hlen) as (si & Ei & Hli & Hci).
  rewrite Ei. cbn [final]. rewrite polls_S by exact Hli.
  destruct (check_buttons_final w si Hli) as (Hl1 & Hc1 & T1 & T2).
  set (s1 := final (check_buttons w si)) in *.
  destruct (polls_last_time w (ticks (sample_at j)) m s1 Hl1) as [I1 I2].
  { intros k Hk. rewrite Hc1, Hci.
    replace (S (clock s + i) + k)%nat with (clock s + (i + S k))%nat by lia.
    apply Hw. lia. }
  assert (Hi : ticks_diff (ticks (sample_at j)) (ticks (sample_at i))
               <= debounce_delay) by (apply Hw; lia).
  assert (Hsi : samples w (clock si) = sample_at i)
    by (unfold sample_at; by rewrite Hci).
  rewrite Hsi in T1, T2.
  split; intros Hacc.
  - rewrite Hacc in T1. rewrite <- T1 in Hi. specialize (I1 Hi).
    unfold accepted1, debounced1.
    destruct (Z.gtb_spec (ticks_diff (ticks (sample_at j))
      (last_button1_time (final (polls w m s1)))) debounce_delay); [lia|].
    apply andb_false_r.
  - rewrite Hacc in T2. rewrite <- T2 in Hi. specialize (I2 Hi).
    unfold accepted2, debounced2.
    destruct (Z.gtb_spec (ticks_diff (ticks (sample_at j))
      (last_button2_time (final (polls w m s1)))) debounce_delay); [lia|].
    apply andb_false_r.
Qed.

(** C5, as the code has it.  The handling of a button answers true, and
    acts, if and only if the sample shows a falling edge (last state high,
    pin low) and the tick difference since the last accepted press of that
    button is strictly above 200.  Consequently, over consecutive entries
    into [check_buttons], once a press of a button is accepted, no press of
    that button is accepted at a later entry while all the entries since
    lie within 200 ms before it: at most one of two falling edges less
    than 200 ms apart is accepted. *)
Theorem debounce_strictly_after_delay (w : world) (s : state) :
  len_ok s →
  (∀ smp, ∃ s', handle_button1 w smp s = Done (accepted1 s smp) s') ∧
  (∀ smp, accepted1 s smp = true ↔
     button1_last_state s = true ∧ pin1 smp = false ∧
     ticks_diff (ticks smp) (last_button1_time s) > debounce_delay) ∧
  (∀ smp, ∃ s', handle_button2 w smp s = Done (accepted2 s smp) s') ∧
  (∀ smp, accepted2 s smp = true ↔
     button2_last_state s = true ∧ pin2 smp = false ∧
     ticks_diff (ticks smp) (last_button2_time s) > debounce_delay) ∧
  (∀ i m,
     let sample_at k := samples w (clock s + k) in
     let j := (i + S m)%nat in
     (∀ k, (i ≤ k < j)%nat →
        ticks_diff (ticks (sample_at j)) (ticks (sample_at k))
          <= debounce_delay) →
     (accepted1 (final (polls w i s)) (sample_at i) = true →
      accepted1 (final (polls w j s)) (sample_at j) = false) ∧
     (accepted2 (final (polls w i s)) (sample_at i) = true →
      accepted2 (final (polls w j s)) (sample_at j) = false)).
Proof.
  intros Hlen. split; [|split; [|split; [|split]]].
  - intros smp. destruct (handle_button1_frame w smp s Hlen) as (s' & E & _).
    by exists s'.
  - intros smp. apply accepted1_iff.
  - intros smp. destruct (handle_button2_frame w smp s) as (s' & E & _).
    by exists s'.
  - intros smp. apply accepted2_iff.
  - intros i m. by apply (window_rejects w s i m Hlen).
Qed.

Lemma debounce_strictly_after_delay_witness :
  accepted1 (init_state true) (samples bounce_world 0) = true ∧
  edge1 (final (polls bounce_world 2 (init_state true)))
        (samples bounce_world 2) = true ∧
  accepted1 (final (polls bounce_world 2 (init_state true)))
            (samples bounce_world 2) = false.
Proof.
  split; [reflexivity|]. split; [reflexivity|].
  destruct (debounce_strictly_after_delay bounce_world (init_state true))
    as (_ & _ & _ & _ & H); [apply length_replicate|].
  destruct (H 0%nat 1%nat) as [H1 _].
  - intros [|[|k]] Hk; [discriminate|discriminate|lia].
  - apply H1. reflexivity.
Defined.

(** C5 as claimed fails at the boundary: a falling edge exactly 200 ms
    after the last accepted press is rejected. *)
Lemma press_at_delay_rejected :
  let s := init_state true in
  let smp := press_sample 200 true false in
  button1_last_state s = true ∧ pin1 smp = false ∧
  debounce_delay <= ticks_diff (ticks smp) (last_button1_time s) ∧
  handle_button1 quiet_world smp s = Done false (set_button1_last_state false s).
Proof. vm_compute. repeat split; discriminate. Qed.

(** *** Pulse *)

Lemma frames_app l1 l2 : frames (l1 ++ l2) = frames l1 ++ frames l2.
Proof. apply omap_app. Qed.

Lemma frames_oled ops l : frames (reverse (EOled <$> ops) ++ l) = frames l.
Proof.
  rewrite frames_app, <- fmap_reverse.
  replace (frames (EOled <$> reverse ops)) with (@nil (list rgb)); [done|].
  induction (reverse ops) as [|o l' IH]; [done|exact IH].
Qed.

(** With idle pins an entry into [check_buttons] answers false and writes
    nothing to the strip. *)
Lemma check_buttons_idle w s :
  idle w →
  ∃ s', check_buttons w s = Done false s' ∧ np s' = np s ∧
    frames (log s') = frames (log s) ∧
    current_color_index s' = current_color_index s.
Proof.
  intros Hw. destruct (Hw (clock s)) as [P1 P2].
  rewrite check_buttons_unfold. cbn zeta.
  rewrite handle_button1_reject by (unfold edge1; by rewrite P1).
  cbv beta iota zeta.
  rewrite handle_button2_reject by (unfold edge2; by rewrite P2).
  cbv beta iota zeta. rewrite check_timeout_eq.
  destruct (_ && _); [cbv zeta; destruct (driver_ok _ _ _)|]; drv;
    eexists; (split; [reflexivity|]); fields; rewrite ?frames_oled;
    by repeat split.
Qed.

Lemma pulse_step_idle w r g b k s :
  idle w → len_ok s →
  ∃ s', pulse_step w r g b k s = Done false s' ∧ len_ok s' ∧
    frames (log s') = pulse_frame (r, g, b) k :: frames (log s).
Proof.
  intros Hw Hlen. unfold pulse_step. munfold.
  destruct (check_buttons_idle w s Hw) as (s1 & -> & N1 & F1 & _).
  rewrite set_all_eq by (unfold len_ok; by rewrite N1). cbn zeta.
  eexists. split; [reflexivity|]. split; [apply length_replicate|].
  cbn. by rewrite <- F1.
Qed.

Lemma pulse_loop_idle w r g b ks : ∀ s,
  idle w → len_ok s →
  ∃ s', for_each ks (pulse_step w r g b) s = Done false s' ∧ len_ok s' ∧
    frames (log s') = reverse (pulse_frame (r, g, b) <$> ks) ++ frames (log s).
Proof.
  induction ks as [|k ks IH]; intros s Hw Hlen.
  - exists s. by repeat split.
  - cbn [for_each]. munfold.
    destruct (pulse_step_idle w r g b k s Hw Hlen) as (s1 & -> & L1 & F1).
    destruct (IH s1 Hw L1) as (s' & -> & L' & F').
    exists s'. split; [reflexivity|]. split; [exact L'|].
    rewrite F', F1, fmap_cons, reverse_cons, <- app_assoc. reflexivity.
Qed.

Lemma pulse_brightness_value k : (pulse_brightness k == Z.of_nat k # 100)%Q.
Proof.
  unfold pulse_brightness, pulse_steps.
  change (inject_Z (Z.of_nat 50)) with (50 # 1)%Q.
  unfold Qeq. cbn. lia.
Qed.

(** C3, as the code has it.  Left alone, the pulse effect writes exactly
    100 frames: steps 0 to 49 up, then steps 50 down to 1, each frame
    holding the selected colour scaled by the brightness (step/50)*0.5 of
    its step.  That brightness is the argument of [set_all]; it takes the
    place of the default 0.3 and is not multiplied by it: it equals
    step/100, so the peak scaling is 0.5 and full red peaks at 127. *)
Theorem pulse_envelope (w : world) (s : state) (c : rgb) :
  idle w → len_ok s → colors !! current_color_index s = Some c →
  (∃ s', effect_pulse w s = Done tt s' ∧
     frames (log s') =
       reverse (pulse_frame c <$> (seq 0 50 ++ reverse (seq 1 50)))
       ++ frames (log s)) ∧
  (∀ k, (pulse_brightness k == Z.of_nat k # 100)%Q) ∧
  pulse_frame (255, 0, 0) 50 = replicate LED_COUNT (127, 0, 0).
Proof.
  intros Hw Hlen Hc. split; [|split; [apply pulse_brightness_value|reflexivity]].
  unfold effect_pulse, current_color. munfold. unfold subscript. rewrite Hc.
  munfold. destruct c as [[r g] b].
  destruct (pulse_loop_idle w r g b (range pulse_steps) s Hw Hlen)
    as (s1 & -> & L1 & F1).
  destruct (pulse_loop_idle w r g b (range_down pulse_steps 0) s1 Hw L1)
    as (s2 & -> & L2 & F2).
  exists s2. split; [reflexivity|].
  rewrite F2, F1, fmap_app, reverse_app, <- app_assoc. reflexivity.
Qed.

Lemma pulse_envelope_witness :
  ∃ s', effect_pulse quiet_world (init_state true) = Done tt s' ∧
    frames (log s') =
      reverse (pulse_frame (255, 0, 0) <$> (seq 0 50 ++ reverse (seq 1 50))).
Proof.
  destruct (pulse_envelope quiet_world (init_state true) (255, 0, 0))
    as ((s' & E & F) & _).
  - intros n. by split.
  - apply length_replicate.
  - reflexivity.
  - exists s'. split; [exact E|]. by rewrite F, app_nil_r.
Defined.

(** C3 as claimed fails: the 0.3 is not applied on top, so full red peaks
    at 127 = int(255 * 0.5), far above int(255 * 0.15) = 38. *)
Lemma pulse_peak_is_half :
  replicate LED_COUNT (127, 0, 0)
    ∈ frames (log (final (effect_pulse quiet_world (init_state true)))) ∧
  scale 255 ((1 # 2) * (3 # 10)) = 38.
Proof.
  split; [|reflexivity]. apply (bool_decide_unpack _). by vm_compute.
Qed.

(** *** Pacing: the sleep between two entries into [check_buttons] *)

Lemma pacing_quiet evs l : Forall button_ev evs → pacing (evs ++ l) = pacing l.
Proof.
  induction 1 as [|e evs He _ IH]; [reflexivity|].
  cbn [app pacing]. rewrite IH. destruct (pacing l) as [cur best].
  by destruct e.
Qed.

Lemma gap_at_weaken c c' B s : c <= c' → gap_at c B s → gap_at c' B s.
Proof.
  intros Hc (Hlen & Hb & Hcur). repeat split; try done.
  intros x Hx. specialize (Hcur x Hx). lia.
Qed.

(** A call starts right after the entry put before it. *)
Lemma gap_at_start B s : len_ok s → 0 <= B → gap_at 0 B (set_log [ECheck] s).
Proof.
  intros Hlen HB. split; [exact Hlen|]. split; [exact HB|].
  intros x [= <-]. lia.
Qed.

(** The entry put after the call closes the last gap. *)
Lemma gap_at_close B s : 0 <= B → gap_at B B s → max_gap (ECheck :: log s) <= B.
Proof.
  intros HB (_ & Hb & Hcur). unfold max_gap, since_check in *. cbn [pacing].
  destruct (pacing (log s)) as [[c|] best]; cbn in *; [|exact Hb].
  specialize (Hcur c eq_refl). lia.
Qed.

Lemma gap_log_quiet c B s e :
  match e with ECheck | ESleep _ => False | _ => True end →
  gap_at c B s → gap_at c B (set_log (e :: log s) s).
Proof.
  intros He (Hlen & Hb & Hcur). unfold gap_at, max_gap, since_check in *.
  cbn [log set_log pacing]. destruct (pacing (log s)) as [cur best].
  by destruct e.
Qed.

Lemma gap_log_sleep c B s ms :
  gap_at c B s → gap_at (c + ms) B (set_log (ESleep ms :: log s) s).
Proof.
  intros (Hlen & Hb & Hcur). unfold gap_at, max_gap, since_check in *.
  cbn [log set_log pacing]. destruct (pacing (log s)) as [cur best].
  cbn in *. repeat split; try done.
  intros x Hx. destruct cur as [y|]; [|discriminate].
  injection Hx as <-. specialize (Hcur y eq_refl). lia.
Qed.

(** In this section a computation that stops early, out of fuel or on an
    [IndexError], stops within the bound too. *)
Section Pacing.
Context (w : world) (B : Z).

Lemma gap_np_set c i x :
  c <= B → triple (gap_at c B) (gap_at B B) (np_set i x) (λ _, True).
Proof.
  intros Hc s Hs. unfold np_set.
  destruct (decide _); [|by eapply gap_at_weaken].
  split; [done|]. destruct Hs as (Hlen & H). split; [|exact H].
  unfold len_ok in *. cbn. by rewrite length_insert.
Qed.

Lemma gap_np_write c : triple (gap_at c B) (gap_at B B) np_write (λ _, True).
Proof. intros s Hs. split; [done|]. by apply gap_log_quiet. Qed.

Lemma gap_sleep c ms :
  hoare (gap_at c B) (sleep_ms ms) (λ _, gap_at (c + ms) B) (gap_at B B).
Proof. intros s Hs. by apply gap_log_sleep. Qed.

Lemma gap_check c :
  c <= B → hoare (gap_at c B) (check_buttons w) (λ _, gap_at 0 B) (gap_at B B).
Proof.
  intros Hc s (Hlen & Hb & Hcur).
  destruct (check_buttons_log w s Hlen) as (evs & L & Hev & _).
  destruct (check_buttons_frame w s Hlen) as (s' & E & Hlen' & _).
  rewrite E in *. cbn [final] in L.
  unfold gap_at, max_gap, since_check in *. rewrite L, pacing_quiet by exact Hev.
  cbn [pacing]. destruct (pacing (log s)) as [cur best]. cbn in *.
  split; [exact Hlen'|]. split.
  - destruct cur as [y|]; [|exact Hb]. specialize (Hcur y eq_refl). lia.
  - intros x [= <-]. lia.
Qed.
End Pacing.

Section PacingEffects.
Context (w : world) (B : Z).
Hypothesis B_nonneg : 0 <= B.

Lemma gap_exit c s : c <= B → gap_at c B s → gap_at B B s.
Proof. apply gap_at_weaken. Qed.

Lemma gap_clear c : c <= B → triple (gap_at c B) (gap_at B B) clear (λ _, True).
Proof.
  intros Hc. apply (clear_inv _ _ (λ _, True)); [done| |apply gap_np_write].
  intros i x _. by apply gap_np_set.
Qed.

Lemma gap_set_color c i r g b q :
  c <= B → triple (gap_at c B) (gap_at B B) (set_color i r g b q) (λ _, True).
Proof.
  intros Hc. apply (set_color_inv _ _ (λ _, True)); [|apply gap_np_write|done].
  intros j x _. by apply gap_np_set.
Qed.

Lemma gap_set_all c r g b q :
  c <= B → triple (gap_at c B) (gap_at B B) (set_all r g b q) (λ _, True).
Proof.
  intros Hc. apply (set_all_inv _ _ (λ _, True)); [|apply gap_np_write|done].
  intros j x _. by apply gap_np_set.
Qed.

Lemma gap_current_color c :
  c <= B → triple (gap_at c B) (gap_at B B) current_color (λ x, x ∈ colors).
Proof. intros Hc. apply current_color_inv. intros s. by apply gap_exit. Qed.

Lemma gap_sleep_to c c' ms {A} (k : M A) Q :
  c + ms <= c' →
  hoare (gap_at c' B) k Q (gap_at B B) →
  hoare (gap_at c B) (sleep_ms ms;; k) Q (gap_at B B).
Proof.
  intros Hc Hk. eapply hoare_bind; [apply gap_sleep|].
  intros ? s Hs. apply Hk. eapply gap_at_weaken; [exact Hc|exact Hs].
Qed.

Lemma gap_ret {A} c c' (a : A) (Q : A → state → Prop) :
  (∀ s, gap_at c' B s → Q a s) → c <= c' →
  hoare (gap_at c B) (mret a) Q (gap_at B B).
Proof. intros HQ Hc. apply hoare_ret. intros s Hs. by eapply HQ, gap_at_weaken. Qed.

(** The head of every loop: enter [check_buttons], leave on a press. *)
Lemma gap_guard c (m : M bool) :
  0 <= c <= B →
  hoare (gap_at 0 B) m (λ _, gap_at c B) (gap_at B B) →
  hoare (gap_at c B)
    (pressed ← check_buttons w; if pressed : bool then mret true else m)
    (λ r s, if r then gap_at B B s else gap_at c B s) (gap_at B B).
Proof.
  intros Hc Hm. eapply hoare_bind; [apply gap_check; lia|].
  intros [|].
  - apply hoare_ret. intros s Hs. by eapply gap_at_weaken.
  - eapply hoare_conseq; [exact Hm|done| |done].
    intros [|] s Hs; [|done]. eapply gap_at_weaken; [|exact Hs]. lia.
Qed.

Lemma gap_guard_while {St} c (m : M (option St)) (P : St → Prop) :
  0 <= c <= B →
  hoare (gap_at 0 B) m
    (λ r s, match r with None => gap_at B B s | Some st => P st ∧ gap_at c B s end)
    (gap_at B B) →
  hoare (gap_at c B)
    (pressed ← check_buttons w; if pressed : bool then mret None else m)
    (λ r s, match r with None => gap_at B B s | Some st => P st ∧ gap_at c B s end)
    (gap_at B B).
Proof.
  intros Hc Hm. eapply hoare_bind; [apply gap_check; lia|].
  intros [|]; [|exact Hm].
  apply hoare_ret. intros s Hs. eapply gap_exit, Hs. exact B_nonneg.
Qed.

Lemma gap_loop {A} c xs (body : A → M bool) :
  (∀ x, x ∈ xs →
     hoare (gap_at c B) (body x)
       (λ r s, if r then gap_at B B s else gap_at c B s) (gap_at B B)) →
  hoare (gap_at c B) (for_each xs body)
    (λ r s, if r then gap_at B B s else gap_at c B s) (gap_at B B).
Proof. apply hoare_for_each. Qed.

Lemma gap_loop_exit (r : bool) c :
  c <= B →
  hoare (λ s, if r then gap_at B B s else gap_at c B s) (mret tt)
    (λ _, gap_at B B) (gap_at B B).
Proof.
  intros Hc. apply hoare_ret. intros s Hs.
  destruct r; [exact Hs|by eapply gap_exit].
Qed.

(** All-on and off sleep once and never enter [check_buttons]. *)
Lemma gap_effect_all_on :
  50 <= B → hoare (gap_at 0 B) effect_all_on (λ _, gap_at B B) (gap_at B B).
Proof.
  intros HB. unfold effect_all_on.
  eapply hoare_bind_triple; [by apply gap_current_color|].
  intros [[r g] b] ?. eapply hoare_seq_quiet; [by apply gap_set_all|]. intros ?.
  eapply hoare_conseq; [apply gap_sleep|done| |done].
  intros ? s Hs. by eapply gap_exit, Hs.
Qed.

Lemma gap_effect_off :
  100 <= B → hoare (gap_at 0 B) effect_off (λ _, gap_at B B) (gap_at B B).
Proof.
  intros HB. unfold effect_off.
  eapply hoare_seq_quiet; [by apply gap_clear|]. intros ?.
  eapply hoare_conseq; [apply gap_sleep|done| |done].
  intros ? s Hs. by eapply gap_exit, Hs.
Qed.

Lemma gap_effect_rainbow_cycle :
  10 <= B →
  hoare (gap_at 0 B) (effect_rainbow_cycle w) (λ _, gap_at B B) (gap_at B B).
Proof.
  intros HB. unfold effect_rainbow_cycle.
  apply (hoare_pre _ (gap_at 10 B)); [intros s Hs; eapply gap_at_weaken; [|exact Hs]; lia|].
  eapply hoare_bind; [|intros r; by apply (gap_loop_exit r 10)].
  apply gap_loop. intros j _. apply gap_guard; [lia|].
  eapply hoare_seq_quiet.
  { apply triple_for_. intros i _. destruct (wheel _) as [[r g] b].
    apply gap_set_color. lia. }
  intros ?. apply (gap_sleep_to 0 10); [lia|]. by apply (gap_ret 10 10).
Qed.

Lemma gap_effect_color_wipe :
  550 <= B →
  hoare (gap_at 0 B) (effect_color_wipe w) (λ _, gap_at B B) (gap_at B B).
Proof.
  intros HB. unfold effect_color_wipe.
  apply (hoare_pre _ (gap_at 50 B)); [intros s Hs; eapply gap_at_weaken; [|exact Hs]; lia|].
  eapply hoare_bind_triple; [apply gap_current_color; lia|].
  intros [[r g] b] ?. eapply hoare_bind.
  - apply gap_loop. intros i _. apply gap_guard; [lia|].
    eapply hoare_seq_quiet; [apply gap_set_color; lia|]. intros ?.
    apply (gap_sleep_to 0 50); [lia|]. by apply (gap_ret 50 50).
  - intros [|].
    + by apply hoare_ret.
    + apply (gap_sleep_to 50 550); [lia|].
      eapply hoare_bind; [|intros r'; by apply (gap_loop_exit r' 550)].
      apply gap_loop. intros i _. apply gap_guard; [lia|].
      eapply hoare_seq_quiet; [apply gap_set_color; lia|]. intros ?.
      apply (gap_sleep_to 0 550); [lia|]. by apply (gap_ret 550 550).
Qed.

Lemma gap_for_add {A} d top xs (body : A → M unit) :
  0 <= d →
  (∀ x c0, 0 <= c0 → c0 + d <= top →
     hoare (gap_at c0 B) (body x) (λ _, gap_at (c0 + d) B) (gap_at B B)) →
  ∀ c, 0 <= c → c + d * Z.of_nat (length xs) <= top →
    hoare (gap_at c B) (for_ xs body)
      (λ _, gap_at (c + d * Z.of_nat (length xs)) B) (gap_at B B).
Proof.
  intros Hd Hb. induction xs as [|x xs IH]; intros c Hc Htop.
  - apply hoare_ret. intros s Hs. eapply gap_at_weaken; [|exact Hs]. cbn. lia.
  - cbn [for_]. cbn [length] in *. rewrite Nat2Z.inj_succ in *.
    pose proof (Nat2Z.is_nonneg (length xs)) as Hn.
    eapply hoare_bind; [apply Hb; nia|]. intros ?.
    eapply hoare_conseq; [apply (IH (c + d)); nia|done| |done].
    intros ? s Hs. eapply gap_at_weaken; [|exact Hs]. nia.
Qed.

Lemma gap_effect_theater_chase :
  300 <= B →
  hoare (gap_at 0 B) (effect_theater_chase w) (λ _, gap_at B B) (gap_at B B).
Proof.
  intros HB. unfold effect_theater_chase.
  apply (hoare_pre _ (gap_at 300 B)); [intros s Hs; eapply gap_at_weaken; [|exact Hs]; lia|].
  eapply hoare_bind_triple; [apply gap_current_color; lia|].
  intros [[r g] b] ?.
  eapply hoare_bind; [|intros r'; by apply (gap_loop_exit r' 300)].
  apply gap_loop. intros j _. apply gap_guard; [lia|].
  eapply hoare_bind.
  - apply (gap_for_add 100 300); [lia| |lia|cbn; lia]. intros q c0 Hc0 Htop.
    eapply hoare_seq_quiet.
    { apply triple_for_. intros i _. apply triple_if;
        [apply gap_set_color; lia|by apply triple_ret]. }
    intros ?. apply (gap_sleep_to c0 (c0 + 50)); [lia|].
    eapply hoare_seq_quiet; [apply gap_clear; lia|]. intros ?.
    eapply hoare_conseq; [apply gap_sleep|done| |done].
    intros ? s Hs. eapply gap_at_weaken; [|exact Hs]. lia.
  - intros ?. apply hoare_ret. intros s Hs. exact Hs.
Qed.

Lemma gap_pulse_step r g b k :
  20 <= B →
  hoare (gap_at 20 B) (pulse_step w r g b k)
    (λ r s, if r then gap_at B B s else gap_at 20 B s) (gap_at B B).
Proof.
  intros HB. unfold pulse_step. apply gap_guard; [lia|]. cbn zeta.
  eapply hoare_seq_quiet; [apply gap_set_all; lia|]. intros ?.
  apply (gap_sleep_to 0 20); [lia|]. by apply (gap_ret 20 20).
Qed.

Lemma gap_effect_pulse :
  20 <= B →
  hoare (gap_at 0 B) (effect_pulse w) (λ _, gap_at B B) (gap_at B B).
Proof.
  intros HB. unfold effect_pulse.
  apply (hoare_pre _ (gap_at 20 B)); [intros s Hs; eapply gap_at_weaken; [|exact Hs]; lia|].
  eapply hoare_bind_triple; [apply gap_current_color; lia|].
  intros [[r g] b] ?. eapply hoare_bind.
  - apply gap_loop. intros k _. by apply gap_pulse_step.
  - intros [|].
    + by apply hoare_ret.
    + eapply hoare_bind; [|intros r'; by apply (gap_loop_exit r' 20)].
      apply gap_loop. intros k _. by apply gap_pulse_step.
Qed.

Lemma gap_running_step r g b i :
  50 <= B →
  hoare (gap_at 50 B) (running_step w r g b i)
    (λ r s, if r then gap_at B B s else gap_at 50 B s) (gap_at B B).
Proof.
  intros HB. unfold running_step. apply gap_guard; [lia|].
  eapply hoare_seq_quiet; [apply gap_clear; lia|]. intros ?.
  eapply hoare_seq_quiet; [apply gap_set_color; lia|]. intros ?.
  apply (gap_sleep_to 0 50); [lia|]. by apply (gap_ret 50 50).
Qed.

Lemma gap_effect_running_light :
  50 <= B →
  hoare (gap_at 0 B) (effect_running_light w) (λ _, gap_at B B) (gap_at B B).
Proof.
  intros HB. unfold effect_running_light.
  apply (hoare_pre _ (gap_at 50 B)); [intros s Hs; eapply gap_at_weaken; [|exact Hs]; lia|].
  eapply hoare_bind_triple; [apply gap_current_color; lia|].
  intros [[r g] b] ?. eapply hoare_bind.
  - apply gap_loop. intros k _. by apply gap_running_step.
  - intros [|].
    + by apply hoare_ret.
    + eapply hoare_bind; [|intros r'; by apply (gap_loop_exit r' 50)].
      apply gap_loop. intros k _. by apply gap_running_step.
Qed.

Lemma gap_while {St} c fuel (body : St → M (option St)) (P : St → Prop) st :
  c <= B →
  (∀ st, P st →
     hoare (gap_at c B) (body st)
       (λ r s, match r with
               | None => gap_at B B s
               | Some st' => P st' ∧ gap_at c B s
               end) (gap_at B B)) →
  P st →
  hoare (gap_at c B) (while_true fuel body st) (λ _, gap_at B B) (gap_at B B).
Proof.
  intros Hc Hb Hst.
  apply (hoare_pre _ (λ s, P st ∧ gap_at c B s)); [by split|].
  apply (hoare_while (λ st s, P st ∧ gap_at c B s)).
  - intros st' s [Hp Hs]. by apply Hb.
  - intros st' s [_ Hs]. by eapply gap_exit, Hs.
Qed.

Lemma gap_effect_aurora fuel :
  30 <= B →
  hoare (gap_at 0 B) (effect_aurora w fuel) (λ _, gap_at B B) (gap_at B B).
Proof.
  intros HB. unfold effect_aurora.
  apply (hoare_pre _ (gap_at 30 B)); [intros s Hs; eapply gap_at_weaken; [|exact Hs]; lia|].
  apply (gap_while 30 fuel _ (λ _, True)); [lia| |done].
  intros offset _. unfold aurora_frame.
  apply (gap_guard_while 30 _ (λ _, True)); [lia|].
  eapply hoare_seq_quiet.
  { apply triple_for_. intros i _.
    apply (aurora_pixel_inv _ _ (λ _, True));
      [done|intros s; by apply gap_exit|].
    intros j x _. by apply gap_np_set. }
  intros ?. eapply hoare_seq_quiet; [apply gap_np_write|]. intros ?.
  apply (gap_sleep_to 0 30); [lia|]. by apply (gap_ret 30 30).
Qed.

Lemma gap_effect_fire fuel :
  20 <= B →
  hoare (gap_at 0 B) (effect_fire w fuel) (λ _, gap_at B B) (gap_at B B).
Proof.
  intros HB. unfold effect_fire.
  apply (hoare_pre _ (gap_at 20 B)); [intros s Hs; eapply gap_at_weaken; [|exact Hs]; lia|].
  apply (gap_while 20 fuel _ heat_inv); [lia| |apply heat_initial].
  intros heat Hh. unfold fire_frame.
  apply (gap_guard_while 20 _ heat_inv); [lia|].
  eapply hoare_bind_triple; [by apply fire_cool_triple|]. intros h1 H1.
  eapply hoare_bind_triple; [by apply fire_drift_triple|]. intros h2 H2.
  eapply hoare_bind_triple; [by apply fire_spark_triple|]. intros h3 H3.
  eapply hoare_seq_quiet.
  { apply (fire_render_inv _ _ (λ _, True));
      [done|intros s; by apply gap_exit| |apply gap_np_write|exact H3].
    intros j x _. by apply gap_np_set. }
  intros ?. apply (gap_sleep_to 0 20); [lia|]. by apply (gap_ret 20 20).
Qed.

Lemma gap_effect_breathing fuel :
  20 <= B →
  hoare (gap_at 0 B) (effect_breathing w fuel) (λ _, gap_at B B) (gap_at B B).
Proof.
  intros HB. unfold effect_breathing.
  apply (hoare_pre _ (gap_at 20 B)); [intros s Hs; eapply gap_at_weaken; [|exact Hs]; lia|].
  eapply hoare_bind_triple; [apply gap_current_color; lia|].
  intros [[r g] b] ?.
  apply (gap_while 20 fuel _ (λ _, True)); [lia| |done].
  intros step _. unfold breathing_frame.
  apply (gap_guard_while 20 _ (λ _, True)); [lia|]. cbn zeta.
  eapply hoare_seq_quiet; [apply gap_set_all; lia|]. intros ?.
  apply (gap_sleep_to 0 20); [lia|]. by apply (gap_ret 20 20).
Qed.
End PacingEffects.

(** The pacing of a whole call, its start and its stop included. *)
Lemma call_gap_bound {A} B (m : M A) s :
  0 <= B → len_ok s →
  hoare (gap_at 0 B) m (λ _, gap_at B B) (gap_at B B) → call_gap m s <= B.
Proof.
  intros HB Hlen Hm. unfold call_gap, paced_trace. apply gap_at_close; [exact HB|].
  specialize (Hm (set_log [ECheck] s) (gap_at_start B s Hlen HB)).
  by destruct (m (set_log [ECheck] s)).
Qed.

(** All-on and off never enter [check_buttons]. *)
Lemma unchecked_np_set i c :
  triple (λ s, ECheck ∉ log s) (λ s, ECheck ∉ log s) (np_set i c) (λ _, True).
Proof. intros s Hs. unfold np_set. by destruct (decide _). Qed.

Lemma unchecked_np_write :
  triple (λ s, ECheck ∉ log s) (λ s, ECheck ∉ log s) np_write (λ _, True).
Proof.
  intros s Hs. split; [done|]. cbn. apply not_elem_of_cons. by split.
Qed.

Lemma unchecked_sleep ms :
  triple (λ s, ECheck ∉ log s) (λ s, ECheck ∉ log s) (sleep_ms ms) (λ _, True).
Proof.
  intros s Hs. split; [done|]. cbn. apply not_elem_of_cons. by split.
Qed.

Lemma unchecked_all_on :
  triple (λ s, ECheck ∉ log s) (λ s, ECheck ∉ log s) effect_all_on (λ _, True).
Proof.
  apply (effect_all_on_inv _ _ (λ _, True)); try done.
  - intros i c _. apply unchecked_np_set.
  - apply unchecked_np_write.
  - apply unchecked_sleep.
Qed.

Lemma unchecked_off :
  triple (λ s, ECheck ∉ log s) (λ s, ECheck ∉ log s) effect_off (λ _, True).
Proof.
  apply (effect_off_inv _ _ (λ _, True)); try done.
  - intros i c _. apply unchecked_np_set.
  - apply unchecked_np_write.
  - apply unchecked_sleep.
Qed.

Lemma triple_final {A} (I : state → Prop) (m : M A) (P : A → Prop) s :
  triple I I m P → I s → I (final (m s)).
Proof.
  intros H Hs. specialize (H s Hs). destruct (m s); [apply H|exact H|exact H].
Qed.

(** *** The first thing a looping effect does is to enter [check_buttons] *)

Lemma first_event_cons e l x :
  first_event l = Some x → first_event (e :: l) = Some x.
Proof. unfold first_event. destruct l; [discriminate|]. by rewrite last_cons_cons. Qed.

Lemma first_event_app evs l x :
  first_event l = Some x → first_event (evs ++ l) = Some x.
Proof.
  intros Hl. induction evs as [|e evs IH]; [exact Hl|].
  cbn [app]. by apply first_event_cons.
Qed.

Lemma first_check w :
  hoare fresh_call (check_buttons w)
    (λ r s, if r : bool then checked_first s else checked_first s) checked_first.
Proof.
  intros s [Hlen Hs].
  destruct (check_buttons_log w s Hlen) as (evs & L & _).
  destruct (check_buttons_frame w s Hlen) as (s' & E & Hlen' & _).
  rewrite E in *. cbn [final] in L.
  assert (H : checked_first s').
  { split; [exact Hlen'|]. rewrite L. apply first_event_app.
    destruct Hs as [[-> _]|Hs]; [reflexivity|by apply first_event_cons]. }
  by destruct (_ || _).
Qed.

Lemma first_color : triple fresh_call checked_first current_color (λ _, True).
Proof.
  intros s [Hlen Hs]. unfold current_color. munfold. unfold subscript.
  destruct (colors !! current_color_index s) eqn:Hc; [by repeat split|].
  destruct Hs as [[_ Hi]|Hs]; [|by split].
  apply lookup_ge_None in Hc. lia.
Qed.

Lemma first_np_set i c :
  triple checked_first checked_first (np_set i c) (λ _, True).
Proof.
  intros s [Hlen Hs]. unfold np_set. destruct (decide _); [|by split].
  split; [done|]. split; [|exact Hs].
  unfold len_ok in *. cbn. by rewrite length_insert.
Qed.

Lemma first_log e :
  triple checked_first checked_first (emit e) (λ _, True).
Proof.
  intros s [Hlen Hs]. split; [done|]. split; [exact Hlen|].
  by apply first_event_cons.
Qed.

(** Every effect that loops enters [check_buttons] before it writes a
    pixel or sleeps. *)
Lemma looping_effect_checks_first w fuel e s :
  len_ok s → (current_color_index s < length colors)%nat →
  (1 ≤ e ≤ 8)%nat →
  first_event (call_trace (run_effect w (S fuel) e) s) = Some ECheck.
Proof.
  intros Hlen Hc He. unfold call_trace.
  assert (H0 : fresh_call (set_log [] s)) by (split; [exact Hlen|by left]).
  assert (Hw : ∀ s, checked_first s → fresh_call s).
  { intros s0 [Hl Hs]. split; [exact Hl|by right]. }
  assert (Hwrite : triple checked_first checked_first np_write (λ _, True)).
  { intros s0 Hs0. by apply (first_log (ENpWrite (np s0))). }
  assert (H : hoare fresh_call (run_effect w (S fuel) e)
                (λ _ s, checked_first s ∨ checked_first s) checked_first).
  { destruct e as [|[|[|[|[|[|[|[|[|e]]]]]]]]]; [lia|..|lia];
      cbn [run_effect];
      [ apply (g_rainbow_cycle w fresh_call checked_first)
      | apply (g_color_wipe w fresh_call checked_first)
      | apply (g_theater_chase w fresh_call checked_first)
      | apply (g_pulse w fresh_call checked_first)
      | apply (g_running_light w fresh_call checked_first)
      | apply (g_aurora w fresh_call checked_first)
      | apply (g_fire w fresh_call checked_first)
      | apply (g_breathing w fresh_call checked_first) ];
      first [ exact Hw | exact Hwrite | done | apply first_check
            | apply first_color | apply first_np_set
            | intros ms; apply first_log ]. }
  specialize (H _ H0).
  destruct (run_effect w (S fuel) e (set_log [] s)); cbn [final].
  - by destruct H as [[_ ?]|[_ ?]].
  - apply H.
  - apply H.
Qed.

(** C1, as the code has it.  The pacing of one call of an effect counts
    the time slept from the start of the call to its first entry into
    [check_buttons], between two consecutive entries, and from the last
    entry to the point where the call stops.  Whatever the buttons, the
    draws and the fuel, it is at most 10 ms in the rainbow cycle, 20 ms in
    pulse, fire and breathing, 30 ms in aurora and 50 ms in the running
    light; it is at most 300 ms in the theater chase, which enters
    [check_buttons] once per cycle of three phases, and at most 550 ms in
    the colour wipe, which holds 500 ms between its two loops; left alone,
    these two effects reach 300 ms and 550 ms between two entries.  Each of
    these eight effects enters [check_buttons] before it writes a pixel or
    sleeps, and left alone it enters once per turn of its outermost loop:
    255, 132, 10, 100 and 132 times for the five effects made of [for]
    loops, and once per turn of the [while] loop for the other three.
    All-on and off do not enter [check_buttons] inside a call: they sleep
    50 ms and 100 ms. *)
Theorem check_pacing (w : world) (fuel : nat) (s : state) :
  len_ok s →
  call_gap (effect_rainbow_cycle w) s <= 10 ∧
  call_gap (effect_pulse w) s <= 20 ∧
  call_gap (effect_fire w fuel) s <= 20 ∧
  call_gap (effect_breathing w fuel) s <= 20 ∧
  call_gap (effect_aurora w fuel) s <= 30 ∧
  call_gap (effect_running_light w) s <= 50 ∧
  call_gap (effect_theater_chase w) s <= 300 ∧
  call_gap (effect_color_wipe w) s <= 550 ∧
  call_gap effect_all_on s <= 50 ∧
  call_gap effect_off s <= 100 ∧
  max_gap (call_trace (effect_theater_chase quiet_world) (init_state true)) = 300 ∧
  max_gap (call_trace (effect_color_wipe quiet_world) (init_state true)) = 550 ∧
  (ECheck ∉ call_trace effect_all_on s) ∧
  (ECheck ∉ call_trace effect_off s) ∧
  ((current_color_index s < length colors)%nat →
   ∀ e, (1 ≤ e ≤ 8)%nat →
     first_event (call_trace (run_effect w (S fuel) e) s) = Some ECheck) ∧
  (checks <$> ((λ e, call_trace (run_effect quiet_world 5 e) (init_state true))
               <$> [1; 2; 3; 4; 5; 6; 7; 8]%nat))
    = [255; 132; 10; 100; 132; 5; 5; 5]%nat.
Proof.
  intros Hlen.
  split.
  { apply (call_gap_bound 10); [lia|exact Hlen|].
    by apply gap_effect_rainbow_cycle. }
  split.
  { apply (call_gap_bound 20); [lia|exact Hlen|]. by apply gap_effect_pulse. }
  split.
  { apply (call_gap_bound 20); [lia|exact Hlen|]. by apply gap_effect_fire. }
  split.
  { apply (call_gap_bound 20); [lia|exact Hlen|].
    by apply gap_effect_breathing. }
  split.
  { apply (call_gap_bound 30); [lia|exact Hlen|]. by apply gap_effect_aurora. }
  split.
  { apply (call_gap_bound 50); [lia|exact Hlen|].
    by apply gap_effect_running_light. }
  split.
  { apply (call_gap_bound 300); [lia|exact Hlen|].
    by apply gap_effect_theater_chase. }
  split.
  { apply (call_gap_bound 550); [lia|exact Hlen|].
    by apply gap_effect_color_wipe. }
  split.
  { apply (call_gap_bound 50); [lia|exact Hlen|]. by apply gap_effect_all_on. }
  split.
  { apply (call_gap_bound 100); [lia|exact Hlen|]. by apply gap_effect_off. }
  split; [by vm_compute|]. split; [by vm_compute|].
  split.
  { apply (triple_final (λ s, ECheck ∉ log s) _ _ _ unchecked_all_on).
    apply not_elem_of_nil. }
  split.
  { apply (triple_final (λ s, ECheck ∉ log s) _ _ _ unchecked_off).
    apply not_elem_of_nil. }
  split.
  { intros Hc e He. by apply looping_effect_checks_first. }
  by vm_compute.
Qed.

Lemma check_pacing_witness :
  call_gap (effect_running_light quiet_world) (init_state true) <= 50 ∧
  call_gap (effect_fire quiet_world 5) (init_state true) <= 20 ∧
  first_event (call_trace (run_effect quiet_world 6 7) (init_state true))
    = Some ECheck.
Proof.
  destruct (check_pacing quiet_world 5 (init_state true))
    as (_ & _ & H3 & _ & _ & H6 & _ & _ & _ & _ & _ & _ & _ & _ & H15 & _);
    [apply length_replicate|].
  split; [exact H6|]. split; [exact H3|].
  apply H15; [cbn; lia|lia].
Defined.

(** C1 as claimed fails: left alone, the colour wipe sleeps 550 ms and the
    theater chase 300 ms between two entries into [check_buttons]. *)
Lemma wipe_and_chase_exceed_50ms :
  ¬ max_gap (call_trace (effect_color_wipe quiet_world) (init_state true)) <= 50 ∧
  ¬ max_gap (call_trace (effect_theater_chase quiet_world) (init_state true)) <= 50.
Proof. split; vm_compute; intros H; by apply H. Qed.

(** *** The exact rationals against IEEE floats *)

(** Every channel value at brightness 0.3, in binary32 and in binary64. *)
Lemma scale_matches_ieee :
  Forall (λ c, ieee_scale 24 128 c (ieee_03 24 128) = scale c (3 # 10) ∧
               ieee_scale 53 1024 c (ieee_03 53 1024) = scale c (3 # 10))
         (Z.of_nat <$> seq 0 256).
Proof. apply (bool_decide_unpack _). by vm_compute. Qed.

(** Every step of the pulse on every channel value of [colors]. *)
Lemma pulse_matches_ieee :
  Forall (λ k,
    Forall (λ c,
      ieee_scale 24 128 c (ieee_pulse_brightness 24 128 k)
        = scale c (pulse_brightness k) ∧
      ieee_scale 53 1024 c (ieee_pulse_brightness 53 1024 k)
        = scale c (pulse_brightness k)) [0; 128; 255])
    (seq 0 51).
Proof. apply (bool_decide_unpack _). by vm_compute. Qed.
